(** * Food-Suggester: the response pipeline of [app.py]

    A shallow embedding of the string processing and of the request
    handlers of [app.py]: the conversion of [**bold**] spans to
    [<strong>] tags in [ask_groq], the bullet-list extraction of
    [suggest], the image lookup [get_image_for_query] and the
    autocomplete handler [search_ingredients].

    Python strings are sequences of Unicode code points, so a string is
    a list of code points here; the two external services (the Groq
    chat completion and the Unsplash photo search) are oracles of a
    [World], and the handlers thread the log of image lookups as
    explicit state. *)

From Equations Require Import Equations.
From Equations.Prop Require Import Logic.
From Stdlib Require Import String Ascii.
From Stdlib Require Import List NArith ZArith Bool Arith Lia Sorted.
Import ListNotations.

(** ** Python strings *)

Definition codepoint := N.
Definition pystr := list codepoint.

(** An ASCII literal as a Python string. *)
Definition py (s : string) : pystr := map N_of_ascii (list_ascii_of_string s).
Arguments py s%_string.

Definition NL : codepoint := 10%N.       (* '\n' *)
Definition SPACE : codepoint := 32%N.    (* ' '  *)
Definition STAR : codepoint := 42%N.     (* '*'  *)
Definition DASH : codepoint := 45%N.     (* '-'  *)
Definition LT : codepoint := 60%N.       (* '<'  *)
Definition BULLET : codepoint := 8226%N. (* U+2022 *)

Fixpoint str_eqb (a b : pystr) : bool :=
  match a, b with
  | [], [] => true
  | x :: a', y :: b' => N.eqb x y && str_eqb a' b'
  | _, _ => false
  end.

(** [s.startswith(p)] *)
Fixpoint startswith (p s : pystr) : bool :=
  match p, s with
  | [], _ => true
  | x :: p', y :: s' => N.eqb x y && startswith p' s'
  | _ :: _, [] => false
  end.

(** [p in s] for strings: [p] occurs in [s] as a contiguous run. *)
Fixpoint contains (p s : pystr) : bool :=
  startswith p s ||
  match s with
  | [] => false
  | _ :: s' => contains p s'
  end.

(** [str.isspace] on one code point: the code points CPython's
    [_PyUnicode_IsWhitespace] accepts. *)
Definition isspace (c : codepoint) : bool :=
  ((9 <=? c) && (c <=? 13) || (28 <=? c) && (c <=? 32) ||
   (c =? 133) || (c =? 160) || (c =? 5760) ||
   (8192 <=? c) && (c <=? 8202) || (c =? 8232) || (c =? 8233) ||
   (c =? 8239) || (c =? 8287) || (c =? 12288))%N.

Fixpoint dropwhile (f : codepoint -> bool) (s : pystr) : pystr :=
  match s with
  | [] => []
  | c :: s' => if f c then dropwhile f s' else s
  end.

Definition lstrip_by (f : codepoint -> bool) (s : pystr) : pystr := dropwhile f s.
Definition rstrip_by (f : codepoint -> bool) (s : pystr) : pystr :=
  rev (dropwhile f (rev s)).
Definition strip_by (f : codepoint -> bool) (s : pystr) : pystr :=
  rstrip_by f (lstrip_by f s).

(** [s.strip()] *)
Definition strip (s : pystr) : pystr := strip_by isspace s.

(** [s.strip(chars)] *)
Definition mem (chars : pystr) (c : codepoint) : bool := existsb (N.eqb c) chars.
Definition strip_chars (chars s : pystr) : pystr := strip_by (mem chars) s.

(** [s.split('\n')]: never empty, the last piece is what follows the last
    newline. *)
Fixpoint split_lines (s : pystr) : list pystr :=
  match s with
  | [] => [[]]
  | c :: s' =>
      if N.eqb c NL then [] :: split_lines s'
      else match split_lines s' with
           | l :: ls => (c :: l) :: ls
           | [] => [[c]]
           end
  end.

(** ['\n'.join(ls)] *)
Fixpoint join_lines (ls : list pystr) : pystr :=
  match ls with
  | [] => []
  | [l] => l
  | l :: ls' => l ++ NL :: join_lines ls'
  end.

(** ** The text normalizer: [re.sub(r'\*\*(.*?)\*\*', r'<strong>\1</strong>', s)] *)

Definition STRONG_OPEN : pystr := py "<strong>".
Definition STRONG_CLOSE : pystr := py "</strong>".

(** The lazy group [(.*?)] followed by the closing [\*\*]: the shortest
    run of characters other than a newline ([.] without DOTALL) after
    which two stars stand.  Returns the group and what follows the
    closing marker. *)
Fixpoint find_close (s : pystr) : option (pystr * pystr) :=
  match s with
  | a :: ((b :: rest) as tl) =>
      if N.eqb a STAR && N.eqb b STAR then Some ([], rest)
      else if N.eqb a NL then None
      else match find_close tl with
           | Some (c, r) => Some (a :: c, r)
           | None => None
           end
  | _ => None
  end.

(** A match of the whole pattern at the head of [s]. *)
Definition match_bold (s : pystr) : option (pystr * pystr) :=
  match s with
  | a :: b :: tl => if N.eqb a STAR && N.eqb b STAR then find_close tl else None
  | _ => None
  end.

Lemma find_close_shorter s c r : find_close s = Some (c, r) -> length r < length s.
Proof.
  revert c r. induction s as [|a s IH]; intros c r; simpl; [discriminate|].
  destruct s as [|b rest]; [discriminate|].
  destruct (N.eqb a STAR && N.eqb b STAR).
  - intros [= <- <-]. simpl. lia.
  - destruct (N.eqb a NL); [discriminate|].
    destruct (find_close (b :: rest)) as [[c' r']|] eqn:E; [|discriminate].
    intros [= <- <-]. specialize (IH _ _ eq_refl). simpl in *. lia.
Qed.

Lemma match_bold_shorter s c r : match_bold s = Some (c, r) -> length r < length s.
Proof.
  destruct s as [|a [|b tl]]; simpl; try discriminate.
  destruct (N.eqb a STAR && N.eqb b STAR); [|discriminate].
  intros H. apply find_close_shorter in H. lia.
Qed.

(** [re.sub] scans left to right: where the pattern matches, the
    replacement is emitted and the scan resumes after the match;
    elsewhere the character is copied. *)
Equations? normalize (s : pystr) : pystr by wf (length s) lt :=
  normalize [] := [];
  normalize (a :: s') with inspect (match_bold (a :: s')) := {
    | exist _ (Some (c, r)) _ => STRONG_OPEN ++ c ++ STRONG_CLOSE ++ normalize r;
    | exist _ None _ => a :: normalize s' }.
Proof.
  exact (match_bold_shorter (a :: s') c r e).
Qed.

(** ** The dish list extractor (the middle of [suggest]) *)

(** What follows the prefix [p] in [s], when [s] starts with [p]. *)
Fixpoint after_prefix (p s : pystr) : option pystr :=
  match p, s with
  | [], _ => Some s
  | x :: p', y :: s' => if N.eqb x y then after_prefix p' s' else None
  | _ :: _, [] => None
  end.

(** A match of [</?strong>] at the head of [s]: what follows the tag. *)
Definition match_tag (s : pystr) : option pystr :=
  match after_prefix STRONG_CLOSE s with
  | Some r => Some r
  | None => after_prefix STRONG_OPEN s
  end.

Lemma after_prefix_length p s r :
  after_prefix p s = Some r -> length s = length p + length r.
Proof.
  revert s; induction p as [|x p IH]; intros [|y s]; simpl; try discriminate.
  - intros [= <-]; reflexivity.
  - intros [= <-]; reflexivity.
  - destruct (N.eqb x y); [|discriminate]. intros H; rewrite (IH _ H); reflexivity.
Qed.

Lemma match_tag_shorter s r : match_tag s = Some r -> length r < length s.
Proof.
  unfold match_tag.
  destruct (after_prefix STRONG_CLOSE s) as [r'|] eqn:E.
  - intros [= <-]. apply after_prefix_length in E. rewrite E. simpl. lia.
  - intros H. apply after_prefix_length in H. rewrite H. simpl. lia.
Qed.

(** [re.sub(r'</?strong>', '', line)]: one left-to-right pass that drops
    each tag it meets and copies every other character. *)
Equations? remove_tags (s : pystr) : pystr by wf (length s) lt :=
  remove_tags [] := [];
  remove_tags (a :: s') with inspect (match_tag (a :: s')) := {
    | exist _ (Some r) _ => remove_tags r;
    | exist _ None _ => a :: remove_tags s' }.
Proof.
  exact (match_tag_shorter (a :: s') r e).
Qed.

(** The tuple [('•', '-', '*')] given to [startswith]. *)
Definition BULLET_PREFIXES : list pystr := [[BULLET]; [DASH]; [STAR]].

(** [line.strip().startswith(('•', '-', '*'))] *)
Definition is_dish_line (line : pystr) : bool :=
  existsb (fun p => startswith p (strip line)) BULLET_PREFIXES.

(** The characters of [.strip('•-* ')]. *)
Definition BULLET_CHARS : pystr := [BULLET; DASH; STAR; SPACE].

(** [re.sub(r'</?strong>', '', line).strip('•-* ').strip()] *)
Definition clean_line (line : pystr) : pystr :=
  strip (strip_chars BULLET_CHARS (remove_tags line)).

Definition extract_dishes (response_from_groq : pystr) : list pystr :=
  let raw_lines := split_lines response_from_groq in
  let dish_lines := filter is_dish_line raw_lines in
  map clean_line dish_lines.

(** ** Python values, exceptions and the two monads *)

#[local] Unset Elimination Schemes.

(** What [response.json()] can return, with Python's [None] for [null].
    Numbers are kept as integers, a fraction as any integer other
    than zero: the handlers only ask a number whether it is zero. *)
Inductive value :=
| VNone
| VBool (b : bool)
| VNum (n : Z)
| VStr (s : pystr)
| VList (items : list value)
| VDict (items : list (pystr * value)).

#[local] Set Elimination Schemes.

(** Truth value of an object in [if] and [and]. *)
Definition truthy (v : value) : bool :=
  match v with
  | VNone => false
  | VBool b => b
  | VNum n => negb (Z.eqb n 0)
  | VStr s => negb (str_eqb s [])
  | VList l => match l with [] => false | _ => true end
  | VDict l => match l with [] => false | _ => true end
  end.

Inductive exn := KeyError | IndexError | TypeError | RequestException | OtherError.

Inductive result (A : Type) :=
| Ok (a : A)
| Raise (e : exn).
Arguments Ok {A} a.
Arguments Raise {A} e.

Definition rbind {A B} (m : result A) (k : A -> result B) : result B :=
  match m with
  | Ok a => k a
  | Raise e => Raise e
  end.

Declare Scope result_scope.
Delimit Scope result_scope with result.
Notation "'try' x <- m ; k" := (rbind m (fun x => k))
  (at level 61, x name, m at next level, right associativity) : result_scope.

(** [d.get(key)] on the items of a dict, a key standing once. *)
Fixpoint dict_get (items : list (pystr * value)) (key : pystr) : option value :=
  match items with
  | [] => None
  | (k, v) :: items' => if str_eqb k key then Some v else dict_get items' key
  end.

(** [v[key]] for a string key. *)
Definition getitem (v : value) (key : pystr) : result value :=
  match v with
  | VDict items =>
      match dict_get items key with
      | Some x => Ok x
      | None => Raise KeyError
      end
  | _ => Raise TypeError
  end.

(** [v[0]] *)
Definition getitem0 (v : value) : result value :=
  match v with
  | VList (x :: _) => Ok x
  | VList [] => Raise IndexError
  | VStr (c :: _) => Ok (VStr [c])
  | VStr [] => Raise IndexError
  | VDict _ => Raise KeyError
  | _ => Raise TypeError
  end.

(** ** The outside world *)

(** The keyword arguments of [requests.get] that vary. *)
Record unsplash_params := {
  p_query : pystr;
  p_per_page : nat;
  p_client_id : pystr;
  p_orientation : pystr
}.

(** The trace of the image lookups: each call of [get_image_for_query]
    and each request it sends to Unsplash.  The chat-completion request
    of [ask_groq] is not on it: [ask_groq] is modelled by the text it
    returns. *)
Inductive event :=
| ImageLookup (query : pystr) (is_ingredient : bool)
| HttpGet (url : pystr) (params : unsplash_params).

Definition trace := list event.

(** [requests.get] followed by [raise_for_status] and [json]: an
    exception or the decoded body. *)
Inductive http_outcome :=
| HttpRaises (e : exn)
| HttpJson (data : value).

(** The body of the [try] in [ask_groq]: an exception with its text
    [str(e)] (raised by the client, or by [re.sub] on a content that is
    no string), a reply without choices, or the content of the first
    choice. *)
Inductive groq_outcome :=
| GroqRaises (e : pystr)
| GroqNoChoices
| GroqContent (response_content : pystr).

Record World := {
  (** [os.getenv("GROQ_API_KEY")] and [os.getenv("UNSPLASH_ACCESS_KEY")] *)
  getenv_GROQ_API_KEY : option pystr;
  getenv_UNSPLASH_ACCESS_KEY : option pystr;
  (** the chat completion, by API key and user prompt *)
  groq_create : pystr -> pystr -> groq_outcome;
  (** the photo search, which may answer by what happened before *)
  unsplash_get : trace -> unsplash_params -> http_outcome
}.

(** State passing over the trace, oldest event first. *)
Definition M (A : Type) : Type := trace -> A * trace.

Definition ret {A} (a : A) : M A := fun t => (a, t).
Definition bind {A B} (m : M A) (k : A -> M B) : M B :=
  fun t => let (a, t') := m t in k a t'.
Definition emit (e : event) : M unit := fun t => (tt, t ++ [e]).
Definition history : M trace := fun t => (t, t).

Declare Scope m_scope.
Delimit Scope m_scope with M.
Notation "x <- m ;; k" := (bind m (fun x => k))
  (at level 61, m at next level, right associativity) : m_scope.
Notation "m ;; k" := (bind m (fun _ => k))
  (at level 61, right associativity) : m_scope.

(** [for x in xs: ys.append(f(x))] *)
Fixpoint for_each {A B} (f : A -> M B) (xs : list A) : M (list B) :=
  match xs with
  | [] => ret []
  | x :: xs' => (y <- f x ;; ys <- for_each f xs' ;; ret (y :: ys))%M
  end.

(** ** Configuration *)

Definition DUMMY_GROQ_KEY : pystr := py "dummy_groq_key".
Definition DUMMY_UNSPLASH_KEY : pystr := py "dummy_unsplash_key".

(** [if not KEY: KEY = dummy] at import time. *)
Definition key_or_dummy (env : option pystr) (dummy : pystr) : pystr :=
  match env with
  | None => dummy
  | Some [] => dummy
  | Some k => k
  end.

Definition GROQ_API_KEY (W : World) : pystr :=
  key_or_dummy (getenv_GROQ_API_KEY W) DUMMY_GROQ_KEY.
Definition UNSPLASH_ACCESS_KEY (W : World) : pystr :=
  key_or_dummy (getenv_UNSPLASH_ACCESS_KEY W) DUMMY_UNSPLASH_KEY.

(** [not KEY or KEY == dummy] *)
Definition not_configured (key dummy : pystr) : bool :=
  str_eqb key [] || str_eqb key dummy.

(** ** [ask_groq] *)

Definition MSG_NOT_CONFIGURED : pystr :=
  py "Sorry, Groq API key is not configured. Please set GROQ_API_KEY environment variable.".

(** ["Sorry, I couldn't cook anything with that input "] and U+1F605 *)
Definition MSG_NO_CHOICES : pystr :=
  py "Sorry, I couldn't cook anything with that input " ++ [128517%N].

(** ["Something went wrong while talking to the recipe bot "], U+1F4A5
    and [": "], before the text of the exception. *)
Definition MSG_WENT_WRONG : pystr :=
  py "Something went wrong while talking to the recipe bot " ++ [128165%N] ++ py ": ".

Definition ask_groq (W : World) (prompt : pystr) : pystr :=
  if not_configured (GROQ_API_KEY W) DUMMY_GROQ_KEY then MSG_NOT_CONFIGURED
  else
    match groq_create W (GROQ_API_KEY W) prompt with
    | GroqContent response_content => normalize response_content
    | GroqNoChoices => MSG_NO_CHOICES
    | GroqRaises e => MSG_WENT_WRONG ++ e
    end.

(** ** [get_image_for_query] *)

Definition UNSPLASH_URL : pystr := py "https://api.unsplash.com/search/photos".

(** The body of the [try] once the reply is in: the first photo's URL
    in the wanted size, [None] without results, or an exception. *)
Definition first_photo (reply : http_outcome) (is_ingredient : bool) : result value :=
  match reply with
  | HttpRaises e => Raise e
  | HttpJson data =>
      if truthy data then
        (try results <- getitem data (py "results");
         if truthy results then
           try photo <- getitem0 results;
           try urls <- getitem photo (py "urls");
           getitem urls (if is_ingredient then py "thumb" else py "small")
         else Ok VNone)%result
      else Ok VNone
  end.

Definition get_image_for_query (W : World) (query : pystr) (is_ingredient : bool)
  : M value :=
  (emit (ImageLookup query is_ingredient) ;;
   if not_configured (UNSPLASH_ACCESS_KEY W) DUMMY_UNSPLASH_KEY then ret VNone
   else
     let search_term :=
       if is_ingredient then query ++ py " ingredient food"
       else query ++ py " food recipe" in
     let params := {|
       p_query := search_term;
       p_per_page := 1;
       p_client_id := UNSPLASH_ACCESS_KEY W;
       p_orientation := if is_ingredient then py "squarish" else py "landscape" |} in
     before <- history ;;
     emit (HttpGet UNSPLASH_URL params) ;;
     match first_photo (unsplash_get W before params) is_ingredient with
     | Ok url => ret url
     | Raise _ => ret VNone   (* both [except] clauses return [None] *)
     end)%M.

(** ** [suggest] *)

Record dish := { name : pystr; image_url : value }.

Definition suggest_prompt (ingredients_str : pystr) : pystr :=
  py "Suggest 5 dishes I can make using: " ++ ingredients_str ++
  py ". Return only the names as a bullet list.".

(** The [dishes] handed to the template. *)
Definition suggest (W : World) (ingredients_str : pystr) : M (list dish) :=
  let prompt := suggest_prompt ingredients_str in
  let response_from_groq := ask_groq W prompt in
  let dishes := extract_dishes response_from_groq in
  for_each
    (fun dish_name =>
       (image_url <- get_image_for_query W dish_name false ;;
        ret {| name := dish_name; image_url := image_url |})%M)
    dishes.

(** ** [recipe] *)

Record recipe_page := { rp_dish : pystr; rp_recipe : pystr; rp_image_url : value }.

Definition recipe_prompt (dish : pystr) : pystr :=
  py "Give a proper recipe for " ++ dish ++
  py " with ingredients, steps, and tips. Use **double asterisks** to bold important section headers (e.g., **Ingredients:**, **Steps:**, **Tips:**) and dish names if repeated.".

Definition recipe (W : World) (dish : pystr) : M recipe_page :=
  let recipe_text := ask_groq W (recipe_prompt dish) in
  (image_url <- get_image_for_query W dish false ;;
   ret {| rp_dish := dish; rp_recipe := recipe_text; rp_image_url := image_url |})%M.

(** ** [search_ingredients] *)

Definition all_possible_ingredients : list pystr := map py [
  "chicken"; "rice"; "tomato"; "onion"; "garlic"; "cheese"; "milk"; "eggs";
  "flour"; "sugar"; "salt"; "pepper"; "butter"; "oil"; "potato"; "carrot";
  "spinach"; "broccoli"; "beef"; "pork"; "fish"; "shrimp"; "pasta"; "bread";
  "lemon"; "lime"; "ginger"; "chilli"; "cumin"; "coriander"; "paprika";
  "cream"; "yogurt"; "mushrooms"; "bell pepper"; "cucumber"; "avocado"; "paneer"; "peas";
  "apple"; "banana"; "orange"; "grape"; "strawberry"; "blueberry"; "mango"; "pineapple";
  "lettuce"; "cabbage"; "zucchini"; "eggplant"; "peas"; "beans"; "lentils"; "quinoa";
  "oats"; "honey"; "maple syrup"; "chocolate"; "cocoa powder"; "vanilla extract";
  "almonds"; "walnuts"; "cashews"; "peanuts"; "olives"; "olive oil"; "vinegar";
  "mustard"; "ketchup"; "mayonnaise"; "soy sauce"; "teriyaki sauce"; "sriracha";
  "basil"; "oregano"; "thyme"; "rosemary"; "parsley"; "dill"; "mint"; "cinnamon";
  "nutmeg"; "cloves"; "cardamom"; "turmeric"; "bay leaf"; "coconut milk"; "tofu"; "tempeh"
]%string.

Definition PLACEHOLDER_IMAGE : pystr := py "/static/placeholder_ingredient.png".

Record suggestion := { sg_name : pystr; sg_image : value }.

Section Autocomplete.

(** [str.lower], the lowercase mapping of the Unicode database. *)
Variable lower : pystr -> pystr.

Definition search_ingredients (W : World) (raw_query : pystr) : M (list suggestion) :=
  let query := strip raw_query in
  if negb (str_eqb query []) then
    let filtered_ingredients :=
      filter (fun item => contains (lower query) (lower item)) all_possible_ingredients in
    for_each
      (fun ingredient_name =>
         (image_url <- get_image_for_query W ingredient_name true ;;
          ret {| sg_name := ingredient_name;
                 sg_image := if truthy image_url then image_url
                             else VStr PLACEHOLDER_IMAGE |})%M)
      filtered_ingredients
  else ret [].

End Autocomplete.

(** [str.lower] on ASCII text: the capital letters move to small ones. *)
Definition ascii_lower (s : pystr) : pystr :=
  map (fun c => if (65 <=? c) && (c <=? 90) then c + 32 else c)%N s.

(** * The vocabulary of the properties *)

(** ** Stripped strings *)

(** Neither end of [s] satisfies [f]. *)
Definition clear_ends (f : codepoint -> bool) (s : pystr) : Prop :=
  (forall c s', s = c :: s' -> f c = false) /\
  (forall c s', s = s' ++ [c] -> f c = false).

(** [m] is [s] without its longest prefix and suffix made of [f]. *)
Definition Stripped (f : codepoint -> bool) (s m : pystr) : Prop :=
  exists pre post,
    s = pre ++ m ++ post /\ forallb f pre = true /\ forallb f post = true /\
    clear_ends f m.

Definition clear_endsb (f : codepoint -> bool) (s : pystr) : bool :=
  match s with
  | [] => true
  | c :: _ => negb (f c) && negb (f (last s c))
  end.

(** ** Bulleted lines and extraction *)

Definition MARKERS : list codepoint := [BULLET; DASH; STAR].

(** A bulleted line of the glossary: after leading whitespace stands one
    of the markers. *)
Definition bulleted (line : pystr) : Prop :=
  exists ws b rest,
    line = ws ++ b :: rest /\ forallb isspace ws = true /\ In b MARKERS.

(** The extraction in the words of the contract, without the discarding
    of empty names: every bulleted line gives one name, the line with
    its tags removed, then stripped of bullet characters and spaces,
    then of whitespace. *)
Inductive Extracted : list pystr -> list pystr -> Prop :=
| Extracted_nil : Extracted [] []
| Extracted_keep line u d lines ds :
    bulleted line ->
    Stripped (mem BULLET_CHARS) (remove_tags line) u ->
    Stripped isspace u d ->
    Extracted lines ds ->
    Extracted (line :: lines) (d :: ds)
| Extracted_skip line lines ds :
    ~ bulleted line ->
    Extracted lines ds ->
    Extracted (line :: lines) ds.

Definition EXAMPLE_RESPONSE : pystr :=
  join_lines [py "**Fried Rice**"; py "- **Fried Rice**"; py "- Tomato Soup";
              py "* Garlic Bread"; py "Enjoy your meal!"].

(** ** Markers, spans and balanced responses *)

(** The raw marker [**]. *)
Definition MARK : pystr := [STAR; STAR].

(** [s] holds no marker and does not end with a star, so that no marker
    arises where [s] meets a star that follows. *)
Definition quiet (s : pystr) : Prop := contains MARK (s ++ [STAR]) = false.

(** What the group of a span can hold: no newline and no closing marker. *)
Definition span_content (c : pystr) : Prop := ~ In NL c /\ quiet c.

Definition starts_star (s : pystr) : bool :=
  match s with
  | b :: _ => N.eqb b STAR
  | [] => false
  end.

(** Some span of the pattern stands somewhere in [s]. *)
Fixpoint has_span (s : pystr) : bool :=
  match s with
  | [] => false
  | _ :: s' => match match_bold s with Some _ => true | None => false end || has_span s'
  end.

(** A response with balanced markers, piece by piece: plain text and
    emphasised spans. *)
Inductive piece :=
| Text (t : pystr)
| Bold (c : pystr).

Definition markdown_of (p : piece) : pystr :=
  match p with
  | Text t => t
  | Bold c => MARK ++ c ++ MARK
  end.

Definition html_of (p : piece) : pystr :=
  match p with
  | Text t => t
  | Bold c => STRONG_OPEN ++ c ++ STRONG_CLOSE
  end.

Definition markdown (ps : list piece) : pystr := concat (map markdown_of ps).
Definition html (ps : list piece) : pystr := concat (map html_of ps).

(** Plain text holds no marker and ends with no star; the content of a
    span moreover holds no newline. *)
Definition balanced_piece (p : piece) : Prop :=
  match p with
  | Text t => quiet t
  | Bold c => span_content c
  end.

Definition BALANCED_EXAMPLE : list piece :=
  [Text (py "Try "); Bold (py "Fried Rice"); Text (py " or a * b, then "); Bold []].

(** ** Tags *)

(** A tag stands at the head of [s]. *)
Definition opens_tag (s : pystr) : bool :=
  startswith STRONG_OPEN s || startswith STRONG_CLOSE s.

(** Every [<] of the line opens a tag. *)
Definition tags_only (line : pystr) : Prop :=
  forall pre post, line = pre ++ LT :: post -> opens_tag (LT :: post) = true.

(** The only whitespace of the line is the plain space. *)
Definition only_plain_spaces (line : pystr) : Prop :=
  forall c, In c line -> isspace c = true -> c = SPACE.

(** ** Re-bulleted names *)

(** The synthetic bulleted list of the idempotence property: each name
    behind the same prefix, one per line. *)
Definition rebullet (prefix : pystr) (names : list pystr) : pystr :=
  join_lines (map (app prefix) names).

(** A marker followed by any number of bullet characters or spaces. *)
Definition bullet_prefix (prefix : pystr) : Prop :=
  exists b sp,
    prefix = b :: sp /\ In b MARKERS /\ forallb (mem BULLET_CHARS) sp = true.

(** A name without tags whose ends are no bullet characters or spaces. *)
Definition plain_name (d : pystr) : Prop :=
  contains STRONG_OPEN d = false /\ contains STRONG_CLOSE d = false /\
  clear_ends (mem BULLET_CHARS) d.

(** ** Lookups and example worlds *)

Definition search_params (W : World) (query : pystr) (is_ingredient : bool)
  : unsplash_params :=
  {| p_query := if is_ingredient then query ++ py " ingredient food"
                else query ++ py " food recipe";
     p_per_page := 1;
     p_client_id := UNSPLASH_ACCESS_KEY W;
     p_orientation := if is_ingredient then py "squarish" else py "landscape" |}.

(** The answer of the photo search to the lookup made at trace [t]. *)
Definition reply_at (W : World) (query : pystr) (is_ingredient : bool) (t : trace)
  : http_outcome :=
  unsplash_get W (t ++ [ImageLookup query is_ingredient])
    (search_params W query is_ingredient).

(** The value [get_image_for_query] returns at trace [t]. *)
Definition lookup (W : World) (query : pystr) (is_ingredient : bool) (t : trace)
  : value :=
  fst (get_image_for_query W query is_ingredient t).

Definition size_key (is_ingredient : bool) : pystr :=
  if is_ingredient then py "thumb" else py "small".

(** The URL a well-formed body holds: the entry [size] of the [urls] of
    the first of the [results]. *)
Definition photo_url (data : value) (size : pystr) : option value :=
  match data with
  | VDict top =>
      match dict_get top (py "results") with
      | Some (VList (VDict photo :: _)) =>
          match dict_get photo (py "urls") with
          | Some (VDict urls) => dict_get urls size
          | _ => None
          end
      | _ => None
      end
  | _ => None
  end.

Definition unsplash_unconfigured (W : World) : bool :=
  not_configured (UNSPLASH_ACCESS_KEY W) DUMMY_UNSPLASH_KEY.

Definition groq_unconfigured (W : World) : bool :=
  not_configured (GROQ_API_KEY W) DUMMY_GROQ_KEY.

(** The body of a reply with one photo. *)
Definition photo_body (url : pystr) : value :=
  VDict [(py "total", VNum 1);
         (py "results",
          VList [VDict [(py "id", VStr (py "p1"));
                        (py "urls", VDict [(py "small", VStr url);
                                           (py "thumb", VStr url)])]])].

Definition NO_RESULTS : value := VDict [(py "total", VNum 0); (py "results", VList [])].

(** A photo search that finds nothing for garlic bread, fails on tomato
    soup, and has one photo for anything else. *)
Definition W_PHOTOS : World := {|
  getenv_GROQ_API_KEY := Some (py "gsk_live");
  getenv_UNSPLASH_ACCESS_KEY := Some (py "unsplash_live");
  groq_create := fun _ _ => GroqContent EXAMPLE_RESPONSE;
  unsplash_get := fun _ params =>
    if startswith (py "Garlic Bread") (p_query params) then HttpJson NO_RESULTS
    else if startswith (py "Tomato Soup") (p_query params) then HttpRaises RequestException
    else HttpJson (photo_body (py "https://images.unsplash.com/p1"))
|}.

(** A photo search that answers with a body of another shape. *)
Definition W_MALFORMED : World := {|
  getenv_GROQ_API_KEY := Some (py "gsk_live");
  getenv_UNSPLASH_ACCESS_KEY := Some (py "unsplash_live");
  groq_create := fun _ _ => GroqContent EXAMPLE_RESPONSE;
  unsplash_get := fun _ _ =>
    HttpJson (VDict [(py "errors", VList [VStr (py "Rate Limit Exceeded")])])
|}.

(** No key at all, as in the example of the specification. *)
Definition W_BARE : World := {|
  getenv_GROQ_API_KEY := None;
  getenv_UNSPLASH_ACCESS_KEY := None;
  groq_create := fun _ _ => GroqNoChoices;
  unsplash_get := fun _ _ => HttpRaises RequestException
|}.

(** A completion that raises, with an exception text of two lines. *)
Definition W_BOOM : World := {|
  getenv_GROQ_API_KEY := Some (py "gsk_live");
  getenv_UNSPLASH_ACCESS_KEY := None;
  groq_create := fun _ _ => GroqRaises (py "upstream said:" ++ [NL] ++ py "- Pizza");
  unsplash_get := fun _ _ => HttpRaises RequestException
|}.

Definition W_DOWN : World := {|
  getenv_GROQ_API_KEY := Some (py "gsk_live");
  getenv_UNSPLASH_ACCESS_KEY := None;
  groq_create := fun _ _ => GroqRaises (py "Connection error.");
  unsplash_get := fun _ _ => HttpRaises RequestException
|}.

(** A completion that names one dish twice, between lines of prose. *)
Definition TWICE_RESPONSE : pystr :=
  join_lines [py "Here you go:"; py "- **Dal**"; py "**Note** both are the same";
              py "* Roti"; py "- Dal"].

Definition W_TWICE : World := {|
  getenv_GROQ_API_KEY := Some (py "gsk_live");
  getenv_UNSPLASH_ACCESS_KEY := None;
  groq_create := fun _ _ => GroqContent TWICE_RESPONSE;
  unsplash_get := fun _ _ => HttpRaises RequestException
|}.

(** ** Positions, surviving lines, matching entries *)

(** The positions that [filter] keeps, in increasing order. *)
Fixpoint kept_positions (p : pystr -> bool) (i : nat) (l : list pystr) : list nat :=
  match l with
  | [] => []
  | x :: l' => if p x then i :: kept_positions p (S i) l' else kept_positions p (S i) l'
  end.

(** A line of the raw response that is bulleted once normalized, and
    the name it gives. *)
Definition survives (line : pystr) : bool := is_dish_line (normalize line).
Definition dish_of (line : pystr) : pystr := clean_line (normalize line).

(** The entries of the vocabulary that hold the query, case set aside. *)
Definition matching (lower : pystr -> pystr) (query : pystr) : list pystr :=
  filter (fun item => contains (lower query) (lower item)) all_possible_ingredients.

(** The image of a suggestion whose lookup returned [v]. *)
Definition image_or_placeholder (v : value) : value :=
  if truthy v then v else VStr PLACEHOLDER_IMAGE.

(** ** Events, keys, plain text and well-formed replies *)

(** The piece without its markers. *)
Definition text_of (p : piece) : pystr :=
  match p with
  | Text t => t
  | Bold c => c
  end.

Definition plain (ps : list piece) : pystr := concat (map text_of ps).

(** The environment holds a key to use: set, not empty, and not the
    dummy. *)
Definition key_set (env : option pystr) (dummy : pystr) : bool :=
  match env with
  | None => false
  | Some k => negb (str_eqb k []) && negb (str_eqb k dummy)
  end.

(** The events of one call of [get_image_for_query]: the lookup, and
    the request to Unsplash when the environment holds a key for it. *)
Definition lookup_events (W : World) (query : pystr) (is_ingredient : bool)
  : list event :=
  ImageLookup query is_ingredient ::
  (if key_set (getenv_UNSPLASH_ACCESS_KEY W) DUMMY_UNSPLASH_KEY
   then [HttpGet UNSPLASH_URL (search_params W query is_ingredient)]
   else []).

(** A request to Unsplash. *)
Definition is_request (e : event) : bool :=
  match e with
  | HttpGet _ _ => true
  | ImageLookup _ _ => false
  end.

(** A request to Unsplash goes to the search URL, asks for one photo,
    and carries a key that is neither empty nor the dummy. *)
Definition well_keyed (e : event) : Prop :=
  match e with
  | HttpGet url params =>
      url = UNSPLASH_URL /\ p_per_page params = 1 /\
      p_client_id params <> [] /\ p_client_id params <> DUMMY_UNSPLASH_KEY
  | ImageLookup _ _ => True
  end.

(** The environment leaves the key unconfigured: unset, empty, or the
    dummy itself. *)
Definition env_unconfigured (env : option pystr) (dummy : pystr) : Prop :=
  env = None \/ env = Some [] \/ env = Some dummy.

(** A line of a reply that follows the prompt: a dash, a space, and the
    name, in bold or not. *)
Definition bullet_item (item : bool * pystr) : pystr :=
  py "- " ++ (if fst item then MARK ++ snd item ++ MARK else snd item).

(** A name that the pipeline hands back as it is: no newline, no
    marker, no [<], and neither whitespace, bullet character nor star at
    its ends. *)
Definition clean_name (n : pystr) : Prop :=
  span_content n /\ ~ In LT n /\
  clear_ends (mem BULLET_CHARS) n /\ clear_ends isspace n.

(** No Unsplash key, and a photo search that would find a photo for
    anything. *)
Definition W_NO_UNSPLASH_KEY : World := {|
  getenv_GROQ_API_KEY := Some (py "gsk_live");
  getenv_UNSPLASH_ACCESS_KEY := None;
  groq_create := fun _ _ => GroqContent EXAMPLE_RESPONSE;
  unsplash_get := fun _ _ => HttpJson (photo_body (py "https://images.unsplash.com/p1"))
|}.

(** A body of the expected shape with a number where the URL should be. *)
Definition NUMERIC_URL : value :=
  VDict [(py "results",
          VList [VDict [(py "urls", VDict [(py "small", VNum 42);
                                           (py "thumb", VNum 42)])]])].

Definition W_NUMERIC : World := {|
  getenv_GROQ_API_KEY := Some (py "gsk_live");
  getenv_UNSPLASH_ACCESS_KEY := Some (py "unsplash_live");
  groq_create := fun _ _ => GroqContent (py "- Dal");
  unsplash_get := fun _ _ => HttpJson NUMERIC_URL
|}.

(** A completion that follows the prompt. *)
Definition W_FIVE : World := {|
  getenv_GROQ_API_KEY := Some (py "gsk_live");
  getenv_UNSPLASH_ACCESS_KEY := None;
  groq_create := fun _ _ =>
    GroqContent (join_lines (map bullet_item
      [(true, py "Egg Fried Rice"); (false, py "Stir-fry"); (true, py "Kheer")]));
  unsplash_get := fun _ _ => HttpRaises RequestException
|}.

(** * Properties *)

(** ** Stripping *)

Lemma dropwhile_app_all f pre s :
  forallb f pre = true -> dropwhile f (pre ++ s) = dropwhile f s.
Proof.
  induction pre as [|c pre IH]; simpl; [reflexivity|].
  intros H. apply andb_prop in H as [Hc Hp]. rewrite Hc. auto.
Qed.

Lemma dropwhile_stop f c s : f c = false -> dropwhile f (c :: s) = c :: s.
Proof. intros H; simpl; rewrite H; reflexivity. Qed.

Lemma dropwhile_all f s : forallb f s = true -> dropwhile f s = [].
Proof.
  intros H. rewrite <- (app_nil_r s). rewrite dropwhile_app_all by exact H. reflexivity.
Qed.

Lemma dropwhile_split f s :
  exists pre, s = pre ++ dropwhile f s /\ forallb f pre = true.
Proof.
  induction s as [|c s [pre [E H]]]; simpl.
  - exists []; split; reflexivity.
  - destruct (f c) eqn:Hc.
    + exists (c :: pre); simpl; rewrite Hc, H; split; [f_equal; exact E|reflexivity].
    + exists []; split; reflexivity.
Qed.

Lemma dropwhile_head f s c s' : dropwhile f s = c :: s' -> f c = false.
Proof.
  induction s as [|a s IH]; simpl; [discriminate|].
  destruct (f a) eqn:Ha; [exact IH|].
  intros [= <- <-]; exact Ha.
Qed.

Lemma dropwhile_keeps_last f s c :
  f c = false -> dropwhile f (s ++ [c]) = dropwhile f s ++ [c].
Proof.
  intros Hc. induction s as [|a s IH]; simpl.
  - rewrite Hc; reflexivity.
  - destruct (f a); [exact IH|reflexivity].
Qed.

Lemma forallb_rev f (s : pystr) : forallb f (rev s) = forallb f s.
Proof.
  induction s as [|a s IH]; simpl; [reflexivity|].
  rewrite forallb_app, IH. simpl. rewrite andb_true_r. apply andb_comm.
Qed.

Lemma rstrip_by_split f s :
  exists post, s = rstrip_by f s ++ post /\ forallb f post = true.
Proof.
  unfold rstrip_by. destruct (dropwhile_split f (rev s)) as [pre [E H]].
  exists (rev pre). split.
  - rewrite <- rev_app_distr, <- E, rev_involutive. reflexivity.
  - rewrite forallb_rev. exact H.
Qed.

Lemma rstrip_by_last f s c s' : rstrip_by f s = s' ++ [c] -> f c = false.
Proof.
  unfold rstrip_by. intros H.
  apply (f_equal (@rev _)) in H. rewrite rev_involutive, rev_app_distr in H.
  simpl in H. exact (dropwhile_head _ _ _ _ H).
Qed.

Lemma rstrip_by_cons f c s : f c = false -> rstrip_by f (c :: s) = c :: rstrip_by f s.
Proof.
  intros Hc. unfold rstrip_by. simpl.
  rewrite dropwhile_keeps_last by exact Hc.
  rewrite rev_app_distr. reflexivity.
Qed.

Lemma rstrip_by_app_all f s post :
  forallb f post = true -> rstrip_by f (s ++ post) = rstrip_by f s.
Proof.
  intros H. unfold rstrip_by. rewrite rev_app_distr.
  rewrite dropwhile_app_all; [reflexivity|]. rewrite forallb_rev. exact H.
Qed.

Lemma rstrip_by_fixed f s :
  (forall c s', s = s' ++ [c] -> f c = false) -> rstrip_by f s = s.
Proof.
  intros H. unfold rstrip_by.
  destruct (rev s) as [|c r] eqn:E.
  - apply (f_equal (@rev _)) in E. rewrite rev_involutive in E. subst s. reflexivity.
  - assert (Es : s = rev r ++ [c]).
    { apply (f_equal (@rev _)) in E. rewrite rev_involutive in E. exact E. }
    rewrite (dropwhile_stop _ _ _ (H _ _ Es)). rewrite <- E. apply rev_involutive.
Qed.

Lemma rstrip_by_head f s c s' : rstrip_by f s = c :: s' -> exists s'', s = c :: s''.
Proof.
  destruct (rstrip_by_split f s) as [post [E _]]. intros H.
  rewrite H in E. simpl in E. eauto.
Qed.

Lemma strip_by_Stripped f s : Stripped f s (strip_by f s).
Proof.
  unfold strip_by, lstrip_by.
  destruct (dropwhile_split f s) as [pre [E1 H1]].
  destruct (rstrip_by_split f (dropwhile f s)) as [post [E2 H2]].
  exists pre, post. repeat split; auto.
  - rewrite <- E2. exact E1.
  - intros c s' E. destruct (rstrip_by_head _ _ _ _ E) as [s'' E'].
    exact (dropwhile_head _ _ _ _ E').
  - intros c s' E. exact (rstrip_by_last _ _ _ _ E).
Qed.

Lemma Stripped_unique f s m : Stripped f s m -> m = strip_by f s.
Proof.
  intros (pre & post & -> & Hpre & Hpost & Hhead & Hlast).
  unfold strip_by, lstrip_by. rewrite dropwhile_app_all by exact Hpre.
  destruct m as [|c m'].
  - simpl. rewrite dropwhile_all by exact Hpost. reflexivity.
  - simpl. rewrite (Hhead _ _ eq_refl).
    change (c :: m' ++ post) with ((c :: m') ++ post).
    rewrite rstrip_by_app_all by exact Hpost.
    symmetry. apply rstrip_by_fixed. exact Hlast.
Qed.

Lemma strip_by_fixed f s : clear_ends f s -> strip_by f s = s.
Proof.
  intros H. symmetry. apply Stripped_unique.
  exists [], []. rewrite app_nil_r. repeat split; auto; apply H.
Qed.

Lemma strip_by_clear f s : clear_ends f (strip_by f s).
Proof. destruct (strip_by_Stripped f s) as (? & ? & ? & ? & ? & H). exact H. Qed.

Lemma strip_by_incl f s c : In c (strip_by f s) -> In c s.
Proof.
  destruct (strip_by_Stripped f s) as (pre & post & E & _).
  intros H. rewrite E. apply in_or_app; right. apply in_or_app; left. exact H.
Qed.

Lemma strip_by_all f s : forallb f s = true -> strip_by f s = [].
Proof.
  intros H. unfold strip_by, lstrip_by. rewrite dropwhile_all by exact H. reflexivity.
Qed.

Lemma strip_by_nil_all f s : strip_by f s = [] -> forallb f s = true.
Proof.
  destruct (strip_by_Stripped f s) as (pre & post & E & Hpre & Hpost & _).
  intros H. rewrite H in E. rewrite E. simpl. rewrite forallb_app, Hpre, Hpost. reflexivity.
Qed.

(** The first character left by [strip_by] is the first one left by the
    left strip alone. *)
Lemma strip_by_head f s :
  match dropwhile f s with
  | [] => strip_by f s = []
  | c :: _ => exists s', strip_by f s = c :: s' /\ f c = false
  end.
Proof.
  unfold strip_by, lstrip_by.
  destruct (dropwhile f s) as [|c r] eqn:E; [reflexivity|].
  pose proof (dropwhile_head _ _ _ _ E) as Hc.
  rewrite rstrip_by_cons by exact Hc. eauto.
Qed.

Lemma clear_ends_check f s : clear_endsb f s = true -> clear_ends f s.
Proof.
  destruct s as [|a s]; [intros _; split; intros c s' E; [discriminate|destruct s'; discriminate]|].
  unfold clear_endsb. rewrite andb_true_iff, !negb_true_iff. intros [Hh Hl]. split.
  - intros c s' [= <- _]. exact Hh.
  - intros c s' E. rewrite E, last_last in Hl. exact Hl.
Qed.

(** ** Lines *)

Lemma split_lines_nonempty s : split_lines s <> [].
Proof.
  destruct s as [|c s]; simpl; [discriminate|].
  destruct (N.eqb c NL); [discriminate|].
  destruct (split_lines s); discriminate.
Qed.

Lemma split_lines_line l : ~ In NL l -> split_lines l = [l].
Proof.
  induction l as [|c l IH]; simpl; intros H; [reflexivity|].
  destruct (N.eqb_spec c NL) as [->|_]; [tauto|].
  rewrite IH by tauto. reflexivity.
Qed.

Lemma split_lines_app l s :
  ~ In NL l -> split_lines (l ++ NL :: s) = l :: split_lines s.
Proof.
  induction l as [|c l IH]; simpl; intros H.
  - reflexivity.
  - destruct (N.eqb_spec c NL) as [->|_]; [tauto|].
    rewrite IH by tauto. reflexivity.
Qed.

Lemma split_lines_no_NL s l : In l (split_lines s) -> ~ In NL l.
Proof.
  revert l. induction s as [|c s IH]; simpl; intros l.
  - intros [<-|[]]. tauto.
  - destruct (N.eqb_spec c NL) as [->|Hc].
    + intros [<-|H]; [tauto|auto].
    + destruct (split_lines s) as [|l0 ls]; simpl.
      * intros [<-|[]]. simpl. intros [E|[]]. congruence.
      * intros [<-|H].
        -- simpl. intros [E|E]; [congruence|]. exact (IH l0 (or_introl eq_refl) E).
        -- exact (IH l (or_intror H)).
Qed.

Lemma split_join_lines ls :
  ls <> [] -> Forall (fun l => ~ In NL l) ls -> split_lines (join_lines ls) = ls.
Proof.
  induction ls as [|l ls IH]; [congruence|]. intros _ H.
  inversion H as [|? ? Hl Hls]; subst.
  destruct ls as [|l' ls'].
  - simpl. apply split_lines_line. exact Hl.
  - change (join_lines (l :: l' :: ls')) with (l ++ NL :: join_lines (l' :: ls')).
    rewrite split_lines_app by exact Hl. rewrite IH; [reflexivity|discriminate|exact Hls].
Qed.

Lemma join_split_lines s : join_lines (split_lines s) = s.
Proof.
  induction s as [|c s IH]; simpl; [reflexivity|].
  pose proof (split_lines_nonempty s) as Hne.
  destruct (N.eqb_spec c NL) as [->|Hc].
  - destruct (split_lines s) as [|l ls]; [congruence|].
    change (join_lines ([] :: l :: ls)) with ([] ++ NL :: join_lines (l :: ls)).
    rewrite IH. reflexivity.
  - destruct (split_lines s) as [|l ls]; [congruence|].
    destruct ls as [|l' ls'].
    + simpl in *. rewrite IH. reflexivity.
    + change (join_lines ((c :: l) :: l' :: ls')) with (c :: (l ++ NL :: join_lines (l' :: ls'))).
      change (join_lines (l :: l' :: ls')) with (l ++ NL :: join_lines (l' :: ls')) in IH.
      rewrite IH. reflexivity.
Qed.

(** ** Bulleted lines *)

Lemma marker_not_space b : In b MARKERS -> isspace b = false.
Proof. intros [<-|[<-|[<-|[]]]]; reflexivity. Qed.

Lemma is_dish_line_head line :
  is_dish_line line = true <->
  exists b r, dropwhile isspace line = b :: r /\ In b MARKERS.
Proof.
  unfold is_dish_line, strip. pose proof (strip_by_head isspace line) as Hh.
  destruct (dropwhile isspace line) as [|c r] eqn:E.
  - rewrite Hh. cbn [existsb startswith BULLET_PREFIXES]. split; [discriminate|]. intros (b & r & Hbr & _). discriminate.
  - destruct Hh as (s' & -> & Hc). unfold BULLET_PREFIXES. cbn [existsb startswith].
    rewrite !andb_true_r, orb_false_r.
    split.
    + intros H. exists c, r. split; [reflexivity|].
      apply orb_prop in H as [H|H]; [|apply orb_prop in H as [H|H]];
        apply N.eqb_eq in H; subst c; simpl; auto.
    + intros (b & r' & [= <- <-] & [<-|[<-|[<-|[]]]]);
        rewrite N.eqb_refl; rewrite ?orb_true_r; reflexivity.
Qed.

Lemma is_dish_line_spec line : is_dish_line line = true <-> bulleted line.
Proof.
  rewrite is_dish_line_head. split.
  - intros (b & r & E & Hb). destruct (dropwhile_split isspace line) as [ws [E' Hws]].
    exists ws, b, r. rewrite E in E'. auto.
  - intros (ws & b & rest & -> & Hws & Hb). exists b, rest. split; [|exact Hb].
    rewrite dropwhile_app_all by exact Hws.
    apply dropwhile_stop. apply marker_not_space. exact Hb.
Qed.

(** ** The normalizer, step by step *)

Lemma normalize_step a s :
  normalize (a :: s) =
  match match_bold (a :: s) with
  | Some (c, r) => STRONG_OPEN ++ c ++ STRONG_CLOSE ++ normalize r
  | None => a :: normalize s
  end.
Proof.
  simp normalize. unfold inspect.
  assert (G : forall v (e : match_bold (a :: s) = v),
             normalize_unfold_clause_2 a s (exist _ v e) =
             match v with
             | Some (c, r) => STRONG_OPEN ++ c ++ STRONG_CLOSE ++ normalize r
             | None => a :: normalize s
             end).
  { intros [[c r]|] e; reflexivity. }
  apply G.
Qed.

Lemma remove_tags_step a s :
  remove_tags (a :: s) =
  match match_tag (a :: s) with
  | Some r => remove_tags r
  | None => a :: remove_tags s
  end.
Proof.
  simp remove_tags. unfold inspect.
  assert (G : forall v (e : match_tag (a :: s) = v),
             remove_tags_unfold_clause_2 a s (exist _ v e) =
             match v with
             | Some r => remove_tags r
             | None => a :: remove_tags s
             end).
  { intros [r|] e; reflexivity. }
  apply G.
Qed.

(** ** Prefixes and substrings *)

Lemma startswith_spec p s : startswith p s = true <-> exists post, s = p ++ post.
Proof.
  revert s. induction p as [|x p IH]; intros s; simpl.
  - split; eauto.
  - destruct s as [|y s].
    + split; [discriminate|]. intros [post E]. discriminate.
    + rewrite andb_true_iff, N.eqb_eq, IH. split.
      * intros [-> [post ->]]. eauto.
      * intros [post [= -> ->]]. eauto.
Qed.

Lemma contains_spec p s :
  contains p s = true <-> exists pre post, s = pre ++ p ++ post.
Proof.
  induction s as [|a s IH].
  - simpl. rewrite orb_false_r, startswith_spec. split.
    + intros [post E]. exists [], post. exact E.
    + intros (pre & post & E). destruct pre; [eauto|discriminate].
  - change (contains p (a :: s)) with (startswith p (a :: s) || contains p s).
    rewrite orb_true_iff, startswith_spec, IH. split.
    + intros [[post E]|(pre & post & E)].
      * exists [], post. exact E.
      * exists (a :: pre), post. rewrite E. reflexivity.
    + intros (pre & post & E). destruct pre as [|b pre].
      * left. eauto.
      * right. injection E as _ E. eauto.
Qed.

(** ** C1: the extractor *)

Lemma Extracted_filter_map lines :
  Extracted lines (map clean_line (filter is_dish_line lines)).
Proof.
  induction lines as [|l ls IH]; simpl; [constructor|].
  destruct (is_dish_line l) eqn:E.
  - simpl. apply Extracted_keep with (u := strip_chars BULLET_CHARS (remove_tags l)).
    + apply is_dish_line_spec. exact E.
    + apply strip_by_Stripped.
    + apply strip_by_Stripped.
    + exact IH.
  - apply Extracted_skip; [|exact IH].
    rewrite <- is_dish_line_spec. congruence.
Qed.

Lemma Extracted_functional lines ds ds' :
  Extracted lines ds -> Extracted lines ds' -> ds = ds'.
Proof.
  intros H. revert ds'. induction H; intros ds' H'; inversion H'; subst; try tauto.
  - f_equal; [|auto].
    match goal with
    | H1 : Stripped (mem _) _ ?u1, H2 : Stripped (mem _) _ ?u2 |- _ =>
        apply Stripped_unique in H1; apply Stripped_unique in H2
    end.
    subst.
    repeat match goal with H : Stripped _ _ _ |- _ => apply Stripped_unique in H end.
    congruence.
  - auto.
Qed.

(** C1 (as amended): the extractor keeps exactly the bulleted lines, in
    order, and turns each into its cleaned name; it is the only list
    that does, no name is dropped for being empty, and the example
    response gives the three dishes. *)
Theorem extract_dishes_spec :
  (forall text, Extracted (split_lines text) (extract_dishes text)) /\
  (forall text ds, Extracted (split_lines text) ds -> ds = extract_dishes text) /\
  extract_dishes (normalize EXAMPLE_RESPONSE) =
    [py "Fried Rice"; py "Tomato Soup"; py "Garlic Bread"].
Proof.
  split; [|split].
  - intros text. apply Extracted_filter_map.
  - intros text ds H. eapply Extracted_functional; [exact H|apply Extracted_filter_map].
  - vm_compute. reflexivity.
Qed.

Lemma extract_dishes_spec_witness :
  [py "Tomato Soup"] = extract_dishes (py "- Tomato Soup").
Proof.
  apply (proj1 (proj2 extract_dishes_spec)).
  change (split_lines (py "- Tomato Soup")) with [py "- Tomato Soup"].
  apply Extracted_keep with (u := py "Tomato Soup"); [| | |constructor].
  - exists [], DASH, (py " Tomato Soup"). repeat split. right; left; reflexivity.
  - replace (remove_tags (py "- Tomato Soup")) with (py "- Tomato Soup")
      by (vm_compute; reflexivity).
    exists (py "- "), []. repeat split; apply (clear_ends_check (mem BULLET_CHARS)); reflexivity.
  - exists [], []. repeat split; apply (clear_ends_check isspace); reflexivity.
Defined.

(** C1, the claim as stated fails: a line holding only a bullet gives an
    empty name, which stays in the output. *)
Lemma extract_dishes_keeps_empty_name :
  extract_dishes (normalize (py "-")) = [[]] /\
  In [] (extract_dishes (normalize (py "-"))).
Proof. vm_compute. split; [reflexivity|left; reflexivity]. Qed.

(** ** Markers and spans *)

Lemma startswith_MARK a s :
  startswith MARK (a :: s) = N.eqb a STAR && starts_star s.
Proof.
  unfold MARK. cbn [startswith]. rewrite (N.eqb_sym STAR a).
  destruct s as [|b s']; cbn [startswith starts_star].
  - reflexivity.
  - rewrite (N.eqb_sym STAR b), andb_true_r. reflexivity.
Qed.

Lemma contains_cons p a s : contains p (a :: s) = startswith p (a :: s) || contains p s.
Proof. reflexivity. Qed.

Lemma quiet_nil : quiet [].
Proof. reflexivity. Qed.

Lemma quiet_cons_iff a s :
  quiet (a :: s) <->
  N.eqb a STAR && starts_star (s ++ [STAR]) = false /\ quiet s.
Proof.
  unfold quiet. change ((a :: s) ++ [STAR]) with (a :: (s ++ [STAR])).
  rewrite contains_cons, startswith_MARK. apply orb_false_iff.
Qed.

Lemma starts_star_app s t :
  starts_star (s ++ [STAR]) = false -> starts_star (s ++ t) = false.
Proof. destruct s as [|b s]; simpl; [discriminate|auto]. Qed.

Lemma quiet_app s t : quiet s -> quiet t -> quiet (s ++ t).
Proof.
  intros Hs Ht. induction s as [|a s IH]; [exact Ht|].
  apply quiet_cons_iff in Hs as [Ha Hs].
  change ((a :: s) ++ t) with (a :: (s ++ t)). apply quiet_cons_iff. split; [|auto].
  destruct (N.eqb a STAR); [|reflexivity]. simpl in *.
  rewrite <- app_assoc. apply starts_star_app. exact Ha.
Qed.

Lemma quiet_cons_other a s : a <> STAR -> quiet s -> quiet (a :: s).
Proof.
  intros Ha Hs. apply quiet_cons_iff. split; [|exact Hs].
  apply N.eqb_neq in Ha. rewrite Ha. reflexivity.
Qed.

Lemma quiet_no_MARK s : quiet s -> contains MARK s = false.
Proof.
  induction s as [|a s IH]; [reflexivity|].
  intros H. apply quiet_cons_iff in H as [Ha Hs].
  rewrite contains_cons, startswith_MARK, (IH Hs), orb_false_r.
  destruct (N.eqb a STAR); [|reflexivity]. simpl in *.
  destruct s as [|b s]; [reflexivity|exact Ha].
Qed.

Lemma find_close_cons a b rest :
  find_close (a :: b :: rest) =
  if N.eqb a STAR && N.eqb b STAR then Some ([], rest)
  else if N.eqb a NL then None
  else match find_close (b :: rest) with
       | Some (c, r) => Some (a :: c, r)
       | None => None
       end.
Proof. reflexivity. Qed.

Lemma find_close_spec s c r :
  find_close s = Some (c, r) <-> s = c ++ MARK ++ r /\ span_content c.
Proof.
  split.
  - revert c r. induction s as [|a s IH]; intros c r; simpl; [discriminate|].
    destruct s as [|b rest]; [discriminate|].
    destruct (N.eqb a STAR && N.eqb b STAR) eqn:Hab.
    + intros [= <- <-]. apply andb_prop in Hab as [Ha Hb].
      apply N.eqb_eq in Ha, Hb. subst. split; [reflexivity|split; [simpl; tauto|apply quiet_nil]].
    + destruct (N.eqb_spec a NL) as [|Hnl]; [discriminate|].
      destruct (find_close (b :: rest)) as [[c' r']|] eqn:E; [|discriminate].
      intros [= <- <-]. destruct (IH _ _ eq_refl) as (E' & Hc' & Hq).
      repeat split.
      * rewrite E'. reflexivity.
      * simpl. intros [H|H]; [congruence|tauto].
      * apply quiet_cons_iff. split; [|exact Hq].
        destruct (N.eqb a STAR); [|reflexivity]. simpl in *.
        destruct c' as [|x c'']; simpl in *; injection E' as -> _; exact Hab.
  - intros (-> & Hnl & Hq). revert Hnl Hq. induction c as [|a c IH]; intros Hnl Hq.
    + reflexivity.
    + apply quiet_cons_iff in Hq as [Ha Hq].
      assert (Hc : ~ In NL c) by (simpl in Hnl; tauto).
      specialize (IH Hc Hq).
      change ((a :: c) ++ MARK ++ r) with (a :: (c ++ MARK ++ r)).
      destruct (c ++ MARK ++ r) as [|b rest] eqn:E.
      { destruct c; discriminate. }
      rewrite find_close_cons.
      assert (Hab : N.eqb a STAR && N.eqb b STAR = false).
      { destruct (N.eqb a STAR); [|reflexivity]. simpl in *.
        destruct c as [|x c']; simpl in *; injection E as <- _; exact Ha. }
      rewrite Hab. destruct (N.eqb_spec a NL) as [->|_]; [simpl in Hnl; tauto|].
      rewrite IH. reflexivity.
Qed.

(** The pattern matches at the head of [s] exactly when [s] opens with a
    marker, a content without newline or marker, and a marker; the
    content is the shortest possible. *)
Lemma match_bold_spec s c r :
  match_bold s = Some (c, r) <-> s = MARK ++ c ++ MARK ++ r /\ span_content c.
Proof.
  unfold match_bold. split.
  - destruct s as [|a [|b tl]]; try discriminate.
    destruct (N.eqb a STAR && N.eqb b STAR) eqn:Hab; [|discriminate].
    apply andb_prop in Hab as [Ha Hb]. apply N.eqb_eq in Ha, Hb. subst.
    intros H. apply find_close_spec in H as [-> H]. auto.
  - intros [-> H]. simpl. apply find_close_spec. auto.
Qed.

Lemma match_bold_no_span a s :
  (forall c r, span_content c -> a :: s <> MARK ++ c ++ MARK ++ r) ->
  match_bold (a :: s) = None.
Proof.
  intros H. destruct (match_bold (a :: s)) as [[c r]|] eqn:E; [|reflexivity].
  apply match_bold_spec in E as [E Hc]. destruct (H c r Hc E).
Qed.

Lemma match_bold_not_star a s :
  N.eqb a STAR && starts_star s = false -> match_bold (a :: s) = None.
Proof.
  intros H. unfold match_bold. destruct s as [|b tl]; [reflexivity|].
  simpl in H. rewrite H. reflexivity.
Qed.

Lemma normalize_span c rest :
  span_content c ->
  normalize (MARK ++ c ++ MARK ++ rest) =
  STRONG_OPEN ++ c ++ STRONG_CLOSE ++ normalize rest.
Proof.
  intros H. change (MARK ++ c ++ MARK ++ rest) with (STAR :: STAR :: c ++ MARK ++ rest).
  rewrite normalize_step.
  assert (E : match_bold (STAR :: STAR :: c ++ MARK ++ rest) = Some (c, rest)).
  { apply match_bold_spec. auto. }
  rewrite E. reflexivity.
Qed.

Lemma normalize_text t rest : quiet t -> normalize (t ++ rest) = t ++ normalize rest.
Proof.
  induction t as [|a t IH]; intros H; [reflexivity|].
  apply quiet_cons_iff in H as [Ha Ht].
  change ((a :: t) ++ rest) with (a :: (t ++ rest)).
  rewrite normalize_step, match_bold_not_star.
  - rewrite IH by exact Ht. reflexivity.
  - destruct (N.eqb a STAR); [|reflexivity]. simpl in *.
    apply starts_star_app. exact Ha.
Qed.

Lemma normalize_untouched s :
  (forall pre c post, s = pre ++ MARK ++ c ++ MARK ++ post -> In NL c) ->
  normalize s = s.
Proof.
  induction s as [|a s IH]; intros H; [reflexivity|].
  rewrite normalize_step, match_bold_no_span.
  - f_equal. apply IH. intros pre c post E. apply (H (a :: pre) c post).
    rewrite E. reflexivity.
  - intros c r [Hc _] E. apply Hc. exact (H [] c r E).
Qed.

Lemma find_close_finds c post : ~ In NL c -> find_close (c ++ MARK ++ post) <> None.
Proof.
  induction c as [|a c IH]; intros H; [discriminate|].
  change ((a :: c) ++ MARK ++ post) with (a :: (c ++ MARK ++ post)).
  destruct (c ++ MARK ++ post) as [|b rest] eqn:E; [destruct c; discriminate|].
  rewrite find_close_cons. destruct (N.eqb a STAR && N.eqb b STAR); [discriminate|].
  destruct (N.eqb_spec a NL) as [->|_]; [simpl in H; tauto|].
  destruct (find_close (b :: rest)); [destruct p; discriminate|].
  apply IH. simpl in H. tauto.
Qed.

Lemma has_span_cons a s :
  has_span (a :: s) =
  match match_bold (a :: s) with Some _ => true | None => false end || has_span s.
Proof. reflexivity. Qed.

Lemma has_span_check s :
  has_span s = false ->
  forall pre c post, s = pre ++ MARK ++ c ++ MARK ++ post -> In NL c.
Proof.
  intros H pre c post ->. revert H. induction pre as [|a pre IH]; intros H.
  - destruct (in_dec N.eq_dec NL c) as [Hin|Hin]; [exact Hin|]. exfalso.
    pose proof (find_close_finds c post Hin) as Hf.
    change ([] ++ MARK ++ c ++ MARK ++ post)
      with (STAR :: STAR :: (c ++ MARK ++ post)) in H.
    rewrite has_span_cons in H. apply orb_false_iff in H as [H _].
    change (match_bold (STAR :: STAR :: (c ++ MARK ++ post)))
      with (find_close (c ++ MARK ++ post)) in H.
    destruct (find_close (c ++ MARK ++ post)); [discriminate H|congruence].
  - change ((a :: pre) ++ MARK ++ c ++ MARK ++ post)
      with (a :: (pre ++ MARK ++ c ++ MARK ++ post)) in H.
    rewrite has_span_cons in H. apply orb_false_iff in H as [_ H]. exact (IH H).
Qed.

(** C2 (as amended): the normalizer scans left to right; a span
    [**content**] whose content has no newline and no closing marker
    becomes [<strong>content</strong>] and the scan resumes behind it;
    where no such span starts the character is copied; a text without
    any pair of markers on one line comes back unchanged; the empty
    text gives the empty text. *)
Theorem normalize_spec :
  normalize [] = [] /\
  (forall c rest,
     span_content c ->
     normalize (MARK ++ c ++ MARK ++ rest) =
     STRONG_OPEN ++ c ++ STRONG_CLOSE ++ normalize rest) /\
  (forall a s,
     (forall c r, span_content c -> a :: s <> MARK ++ c ++ MARK ++ r) ->
     normalize (a :: s) = a :: normalize s) /\
  (forall s,
     (forall pre c post, s = pre ++ MARK ++ c ++ MARK ++ post -> In NL c) ->
     normalize s = s).
Proof.
  split; [reflexivity|]. split; [exact normalize_span|]. split.
  - intros a s H. rewrite normalize_step, match_bold_no_span by exact H. reflexivity.
  - exact normalize_untouched.
Qed.

Lemma normalize_spec_witness :
  normalize (py "**Steps:** stir **well") = py "<strong>Steps:</strong> stir **well".
Proof.
  destruct normalize_spec as (_ & Hspan & _ & Hsame).
  change (py "**Steps:** stir **well") with (MARK ++ py "Steps:" ++ MARK ++ py " stir **well").
  rewrite Hspan.
  - rewrite Hsame; [reflexivity|]. apply has_span_check. reflexivity.
  - split; [vm_compute; intuition discriminate|reflexivity].
Defined.

(** C2, the claim as stated fails: a span whose content holds a newline
    is not converted. *)
Lemma normalize_skips_span_over_newline :
  normalize (py "**a" ++ [NL] ++ py "b**") = py "**a" ++ [NL] ++ py "b**" /\
  normalize (py "**a" ++ [NL] ++ py "b**") <>
    STRONG_OPEN ++ py "a" ++ [NL] ++ py "b" ++ STRONG_CLOSE.
Proof. split; [vm_compute; reflexivity|vm_compute; discriminate]. Qed.

(** ** C3: balanced markers *)

Lemma quiet_app_other s t :
  forallb (fun x => negb (N.eqb x STAR)) s = true -> quiet t -> quiet (s ++ t).
Proof.
  induction s as [|a s IH]; simpl; intros H Ht; [exact Ht|].
  apply andb_prop in H as [Ha Hs]. apply quiet_cons_other; [|auto].
  apply N.eqb_neq. apply negb_true_iff. exact Ha.
Qed.

Lemma html_quiet ps : Forall balanced_piece ps -> quiet (html ps).
Proof.
  induction 1 as [|p ps Hp _ IH]; [exact quiet_nil|].
  change (html (p :: ps)) with (html_of p ++ html ps).
  destruct p as [t|c]; unfold html_of, balanced_piece in *.
  - apply quiet_app; assumption.
  - rewrite <- !app_assoc. apply quiet_app_other; [reflexivity|].
    apply quiet_app; [apply Hp|]. apply quiet_app_other; [reflexivity|exact IH].
Qed.

Lemma normalize_markdown ps :
  Forall balanced_piece ps -> normalize (markdown ps) = html ps.
Proof.
  induction 1 as [|p ps Hp _ IH]; [reflexivity|].
  change (html (p :: ps)) with (html_of p ++ html ps).
  change (markdown (p :: ps)) with (markdown_of p ++ markdown ps).
  destruct p as [t|c]; unfold html_of, markdown_of, balanced_piece in *.
  - rewrite normalize_text by exact Hp. rewrite IH. reflexivity.
  - rewrite <- !app_assoc. rewrite normalize_span by exact Hp. rewrite IH. reflexivity.
Qed.

(** C3 (as amended): on a response whose markers are balanced, the
    spans become tags, the content and the text around it are kept in
    order, and no raw marker is left. *)
Theorem normalize_balanced ps :
  Forall balanced_piece ps ->
  normalize (markdown ps) = html ps /\
  contains MARK (normalize (markdown ps)) = false.
Proof.
  intros H. rewrite normalize_markdown by exact H. split; [reflexivity|].
  apply quiet_no_MARK. apply html_quiet. exact H.
Qed.

Lemma normalize_balanced_witness :
  normalize (py "Try **Fried Rice** or a * b, then ****") =
    py "Try <strong>Fried Rice</strong> or a * b, then <strong></strong>" /\
  contains MARK (normalize (py "Try **Fried Rice** or a * b, then ****")) = false.
Proof.
  apply (normalize_balanced BALANCED_EXAMPLE).
  repeat constructor; vm_compute; intuition discriminate.
Defined.

(** C3, the claim as stated fails: a lone marker stays in the output. *)
Lemma normalize_keeps_lone_marker :
  normalize (py "a ** b") = py "a ** b" /\
  contains MARK (normalize (py "a ** b")) = true.
Proof. split; vm_compute; reflexivity. Qed.

(** ** Removing tags *)

Lemma length_ind (P : pystr -> Prop) :
  (forall s, (forall r, length r < length s -> P r) -> P s) -> forall s, P s.
Proof.
  intros H s. remember (length s) as n eqn:E. revert s E.
  induction n as [n IH] using lt_wf_ind. intros s ->.
  apply H. intros r Hr. exact (IH _ Hr r eq_refl).
Qed.

Lemma after_prefix_spec p s r : after_prefix p s = Some r <-> s = p ++ r.
Proof.
  revert s. induction p as [|x p IH]; intros s; simpl.
  - split; [intros [= ->]; reflexivity|intros ->; reflexivity].
  - destruct s as [|y s]; [split; discriminate|].
    destruct (N.eqb_spec x y) as [->|Hxy].
    + rewrite IH. split; [intros ->; reflexivity|intros [= ->]; reflexivity].
    + split; [discriminate|intros [= -> _]; tauto].
Qed.

Lemma match_tag_spec s r :
  match_tag s = Some r <-> s = STRONG_CLOSE ++ r \/ s = STRONG_OPEN ++ r.
Proof.
  unfold match_tag. destruct (after_prefix STRONG_CLOSE s) as [r'|] eqn:E.
  - apply after_prefix_spec in E. split.
    + intros [= <-]. auto.
    + intros [H|H]; rewrite H in E.
      * apply app_inv_head in E. congruence.
      * discriminate.
  - rewrite after_prefix_spec. split; [auto|].
    intros [H|H]; [|exact H]. apply after_prefix_spec in H. congruence.
Qed.

Lemma match_tag_none s : match_tag s = None <-> opens_tag s = false.
Proof.
  unfold opens_tag. rewrite orb_false_iff. split.
  - intros H. split.
    + destruct (startswith STRONG_OPEN s) eqn:E; [|reflexivity].
      apply startswith_spec in E as [post E].
      assert (H' : match_tag s = Some post) by (apply match_tag_spec; auto). congruence.
    + destruct (startswith STRONG_CLOSE s) eqn:E; [|reflexivity].
      apply startswith_spec in E as [post E].
      assert (H' : match_tag s = Some post) by (apply match_tag_spec; auto). congruence.
  - intros [H1 H2]. destruct (match_tag s) as [r|] eqn:E; [|reflexivity].
    apply match_tag_spec in E as [E|E].
    + assert (startswith STRONG_CLOSE s = true) by (apply startswith_spec; eauto). congruence.
    + assert (startswith STRONG_OPEN s = true) by (apply startswith_spec; eauto). congruence.
Qed.

Lemma remove_tags_incl s c : In c (remove_tags s) -> In c s.
Proof.
  induction s as [s IH] using length_ind. destruct s as [|a s]; [simp remove_tags; auto|].
  rewrite remove_tags_step. destruct (match_tag (a :: s)) as [r|] eqn:E.
  - intros H. pose proof (match_tag_shorter _ _ E) as Hlen.
    apply (IH r Hlen) in H. apply match_tag_spec in E as [E|E]; rewrite E;
      apply in_or_app; right; exact H.
  - intros [<-|H]; [left; reflexivity|]. right. apply (IH s); [simpl; lia|exact H].
Qed.

Lemma tags_only_suffix pre s : tags_only (pre ++ s) -> tags_only s.
Proof.
  intros H p q E. apply (H (pre ++ p) q). rewrite E, app_assoc. reflexivity.
Qed.

Lemma remove_tags_no_LT s : tags_only s -> ~ In LT (remove_tags s).
Proof.
  induction s as [s IH] using length_ind. intros H.
  destruct s as [|a s]; [simp remove_tags; auto|].
  rewrite remove_tags_step. destruct (match_tag (a :: s)) as [r|] eqn:E.
  - apply IH; [exact (match_tag_shorter _ _ E)|].
    apply match_tag_spec in E as [E|E]; rewrite E in H; exact (tags_only_suffix _ _ H).
  - intros [Ha|Hin].
    + subst a. apply match_tag_none in E. rewrite (H [] s eq_refl) in E. discriminate.
    + revert Hin. apply IH; [simpl; lia|]. exact (tags_only_suffix [a] s H).
Qed.

(** A text without any tag is left as it is. *)
Lemma remove_tags_plain s :
  contains STRONG_OPEN s = false -> contains STRONG_CLOSE s = false ->
  remove_tags s = s.
Proof.
  induction s as [|a s IH]; [reflexivity|].
  rewrite !contains_cons, !orb_false_iff. intros [Ho Ho'] [Hc Hc'].
  rewrite remove_tags_step.
  assert (E : match_tag (a :: s) = None).
  { apply match_tag_none. unfold opens_tag. rewrite Ho, Hc. reflexivity. }
  rewrite E, IH by assumption. reflexivity.
Qed.

(** ** C4: the shape of a dish name *)

Lemma clean_line_incl line c : In c (clean_line line) -> In c line.
Proof.
  unfold clean_line, strip, strip_chars. intros H.
  apply remove_tags_incl. eapply strip_by_incl. eapply strip_by_incl. exact H.
Qed.

Lemma clean_line_no_edge_space line : clear_ends isspace (clean_line line).
Proof. apply strip_by_clear. Qed.

Lemma clean_line_no_edge_bullet line :
  only_plain_spaces line -> clear_ends (mem BULLET_CHARS) (clean_line line).
Proof.
  intros Hsp. unfold clean_line, strip.
  set (u := strip_chars BULLET_CHARS (remove_tags line)).
  assert (Hu : clear_ends (mem BULLET_CHARS) u) by apply strip_by_clear.
  assert (Hin : forall c, In c u -> isspace c = true -> mem BULLET_CHARS c = true).
  { intros c Hc Hs. rewrite (Hsp c); [reflexivity| |exact Hs].
    apply remove_tags_incl. eapply strip_by_incl. exact Hc. }
  rewrite strip_by_fixed; [exact Hu|].
  destruct Hu as [Hhead Hlast]. split.
  - intros c s' E. destruct (isspace c) eqn:Hs; [|reflexivity].
    rewrite <- (Hhead c s' E). symmetry. apply Hin; [rewrite E; left; reflexivity|exact Hs].
  - intros c s' E. destruct (isspace c) eqn:Hs; [|reflexivity].
    rewrite <- (Hlast c s' E). symmetry.
    apply Hin; [rewrite E; apply in_or_app; right; left; reflexivity|exact Hs].
Qed.

Lemma no_LT_no_tag d :
  ~ In LT d -> contains STRONG_OPEN d = false /\ contains STRONG_CLOSE d = false.
Proof.
  intros H. split.
  - destruct (contains STRONG_OPEN d) eqn:E; [|reflexivity].
    apply contains_spec in E as (pre & post & ->). destruct H.
    apply in_or_app; right. left. reflexivity.
  - destruct (contains STRONG_CLOSE d) eqn:E; [|reflexivity].
    apply contains_spec in E as (pre & post & ->). destruct H.
    apply in_or_app; right. left. reflexivity.
Qed.

Lemma extract_dishes_In text d :
  In d (extract_dishes text) <->
  exists line, In line (split_lines text) /\ bulleted line /\ d = clean_line line.
Proof.
  unfold extract_dishes. rewrite in_map_iff. split.
  - intros (line & <- & H). apply filter_In in H as [H1 H2].
    exists line. rewrite <- is_dish_line_spec. auto.
  - intros (line & H1 & H2 & ->). exists line. split; [reflexivity|].
    apply filter_In. rewrite is_dish_line_spec. auto.
Qed.

(** C4 (as amended): a dish name has no whitespace at its ends; it
    neither begins nor ends with a bullet character or a space when the
    only whitespace of its line is the plain space; it holds no tag when
    every [<] of its line opens a tag.  Bullet characters inside the
    name are kept. *)
Theorem dish_name_shape text d :
  In d (extract_dishes text) ->
  clear_ends isspace d /\
  exists line,
    In line (split_lines text) /\ bulleted line /\ d = clean_line line /\
    (only_plain_spaces line -> clear_ends (mem BULLET_CHARS) d) /\
    (tags_only line ->
     contains STRONG_OPEN d = false /\ contains STRONG_CLOSE d = false).
Proof.
  intros H. apply extract_dishes_In in H as (line & Hin & Hb & ->).
  split; [apply clean_line_no_edge_space|].
  exists line. repeat split; auto.
  - apply clean_line_no_edge_bullet; assumption.
  - apply clean_line_no_edge_bullet; assumption.
  - apply no_LT_no_tag. intros Hd. revert H. unfold clean_line in Hd. 
    apply strip_by_incl in Hd. apply strip_by_incl in Hd. intros H.
    exact (remove_tags_no_LT _ H Hd).
  - apply no_LT_no_tag. intros Hd. revert H. unfold clean_line in Hd. 
    apply strip_by_incl in Hd. apply strip_by_incl in Hd. intros H.
    exact (remove_tags_no_LT _ H Hd).
Qed.

Lemma dish_name_shape_witness :
  clear_ends isspace (py "Stir-fry") /\
  exists line,
    In line (split_lines (py "- <strong>Stir-fry</strong>")) /\ bulleted line /\
    py "Stir-fry" = clean_line line /\
    (only_plain_spaces line -> clear_ends (mem BULLET_CHARS) (py "Stir-fry")) /\
    (tags_only line ->
     contains STRONG_OPEN (py "Stir-fry") = false /\
     contains STRONG_CLOSE (py "Stir-fry") = false).
Proof.
  apply (dish_name_shape (py "- <strong>Stir-fry</strong>") (py "Stir-fry")).
  vm_compute. left. reflexivity.
Defined.

(** C4, the claim as stated fails: the hyphen inside a name is kept,
    and a tag can come out of the single pass over the line. *)
Lemma dish_name_keeps_inner_bullet :
  extract_dishes (py "- Stir-fry") = [py "Stir-fry"] /\
  In DASH (py "Stir-fry") /\
  extract_dishes (py "- <str<strong>ong>Soup") = [py "<strong>Soup"] /\
  contains STRONG_OPEN (py "<strong>Soup") = true.
Proof.
  repeat split; try (vm_compute; reflexivity).
  vm_compute. do 4 right. left. reflexivity.
Qed.

(** ** C9: extracting from a re-bulleted list *)

Lemma bullet_char_cases c :
  mem BULLET_CHARS c = true -> c = BULLET \/ c = DASH \/ c = STAR \/ c = SPACE.
Proof.
  unfold mem, BULLET_CHARS. cbn [existsb]. rewrite orb_false_r.
  rewrite !orb_true_iff, !N.eqb_eq. tauto.
Qed.

Lemma bullet_chars_other x s :
  forallb (mem BULLET_CHARS) s = true -> x <> BULLET -> x <> DASH -> x <> STAR ->
  x <> SPACE -> ~ In x s.
Proof.
  intros H H1 H2 H3 H4 Hin. rewrite forallb_forall in H.
  destruct (bullet_char_cases _ (H _ Hin)) as [E|[E|[E|E]]]; congruence.
Qed.

Lemma bullet_prefix_chars prefix :
  bullet_prefix prefix -> forallb (mem BULLET_CHARS) prefix = true.
Proof.
  intros (b & sp & -> & Hb & Hsp). cbn [forallb]. rewrite Hsp, andb_true_r.
  destruct Hb as [<-|[<-|[<-|[]]]]; reflexivity.
Qed.

Lemma remove_tags_app_other x s : ~ In LT x -> remove_tags (x ++ s) = x ++ remove_tags s.
Proof.
  induction x as [|a x IH]; intros H; [reflexivity|].
  change ((a :: x) ++ s) with (a :: (x ++ s)). rewrite remove_tags_step.
  assert (E : match_tag (a :: x ++ s) = None).
  { destruct (match_tag (a :: x ++ s)) as [r|] eqn:E; [|reflexivity].
    apply match_tag_spec in E as [E|E]; injection E as -> _; simpl in H; tauto. }
  rewrite E, IH; [reflexivity|]. simpl in H. tauto.
Qed.

Lemma clean_line_rebulleted prefix d :
  bullet_prefix prefix -> plain_name d -> clear_ends isspace d ->
  clean_line (prefix ++ d) = d.
Proof.
  intros Hp (Ho & Hc & Hb) Hs. pose proof (bullet_prefix_chars _ Hp) as Hchars.
  unfold clean_line.
  rewrite remove_tags_app_other
    by (apply (bullet_chars_other LT prefix Hchars); discriminate).
  rewrite remove_tags_plain by assumption.
  assert (E : strip_chars BULLET_CHARS (prefix ++ d) = d).
  { symmetry. apply Stripped_unique. exists prefix, [].
    rewrite app_nil_r. repeat split; auto; apply Hb. }
  rewrite E. apply strip_by_fixed. exact Hs.
Qed.

Lemma extract_dishes_no_NL text d : In d (extract_dishes text) -> ~ In NL d.
Proof.
  intros H Hd. apply extract_dishes_In in H as (line & Hin & _ & ->).
  apply clean_line_incl in Hd. exact (split_lines_no_NL _ _ Hin Hd).
Qed.

Lemma extract_dishes_rebullet prefix ds :
  bullet_prefix prefix ->
  Forall (fun d => plain_name d /\ clear_ends isspace d /\ ~ In NL d) ds ->
  extract_dishes (rebullet prefix ds) = ds.
Proof.
  intros Hp Hds. unfold extract_dishes, rebullet.
  destruct ds as [|d0 ds0]; [reflexivity|]. remember (d0 :: ds0) as ds eqn:Eds.
  pose proof (bullet_prefix_chars _ Hp) as Hchars.
  rewrite split_join_lines.
  - rewrite forallb_filter_id.
    + rewrite map_map. rewrite <- (map_id ds) at 2. apply map_ext_in.
      intros d Hd. rewrite Forall_forall in Hds. destruct (Hds d Hd) as (H1 & H2 & _).
      apply clean_line_rebulleted; assumption.
    + apply forallb_forall. intros l Hl. apply in_map_iff in Hl as (d & <- & _).
      apply is_dish_line_spec. destruct Hp as (b & sp & -> & Hb & _).
      exists [], b, (sp ++ d). auto.
  - rewrite Eds. discriminate.
  - apply Forall_map. revert Hds. apply Forall_impl. intros d (_ & _ & Hnl) Hin.
    apply in_app_or in Hin as [Hin|Hin]; [|tauto].
    revert Hin. apply (bullet_chars_other NL prefix Hchars); discriminate.
Qed.

(** C9 (as amended): when no extracted name holds a tag or has a bullet
    character or a space at an end, extracting from the names put back
    behind bullets, one per line, gives the same names. *)
Theorem extract_dishes_idempotent text prefix :
  bullet_prefix prefix ->
  Forall plain_name (extract_dishes text) ->
  extract_dishes (rebullet prefix (extract_dishes text)) = extract_dishes text.
Proof.
  intros Hp Hplain. apply extract_dishes_rebullet; [exact Hp|].
  rewrite Forall_forall in *. intros d Hd.
  split; [exact (Hplain d Hd)|]. split; [|exact (extract_dishes_no_NL _ _ Hd)].
  apply extract_dishes_In in Hd as (line & _ & _ & ->).
  apply clean_line_no_edge_space.
Qed.

Lemma extract_dishes_idempotent_witness :
  extract_dishes (rebullet (py "* ") (extract_dishes (normalize EXAMPLE_RESPONSE))) =
  extract_dishes (normalize EXAMPLE_RESPONSE).
Proof.
  apply (extract_dishes_idempotent (normalize EXAMPLE_RESPONSE) (py "* ")).
  - exists STAR, [SPACE]. repeat split. right; right; left; reflexivity.
  - replace (extract_dishes (normalize EXAMPLE_RESPONSE))
      with [py "Fried Rice"; py "Tomato Soup"; py "Garlic Bread"]
      by (vm_compute; reflexivity).
    repeat constructor; apply (clear_ends_check (mem BULLET_CHARS)); reflexivity.
Defined.

(** C9, the claim as stated fails: behind a tab, a second bullet
    survives the first extraction and falls to the next one. *)
Lemma extract_dishes_not_idempotent :
  extract_dishes (py "- " ++ [9%N] ++ py "- Soup") = [py "- Soup"] /\
  extract_dishes (rebullet (py "- ") (extract_dishes (py "- " ++ [9%N] ++ py "- Soup")))
    = [py "Soup"].
Proof. split; vm_compute; reflexivity. Qed.

(** ** Loops over the trace *)

Lemma for_each_cons {A B} (f : A -> M B) x xs t :
  for_each f (x :: xs) t =
  (fst (f x t) :: fst (for_each f xs (snd (f x t))),
   snd (for_each f xs (snd (f x t)))).
Proof.
  cbn [for_each]. unfold bind, ret.
  destruct (f x t) as [y t1]. cbn [fst snd].
  destruct (for_each f xs t1) as [ys t2]. reflexivity.
Qed.

Lemma for_each_map {A B C} (f : A -> M B) (g : B -> C) (h : A -> C) xs t :
  (forall x t0, g (fst (f x t0)) = h x) ->
  map g (fst (for_each f xs t)) = map h xs.
Proof.
  intros H. revert t. induction xs as [|x xs IH]; intros t; [reflexivity|].
  rewrite for_each_cons. cbn [fst map]. rewrite H, IH. reflexivity.
Qed.

Lemma for_each_Forall {A B} (f : A -> M B) (P : B -> Prop) xs t :
  (forall x t0, In x xs -> P (fst (f x t0))) -> Forall P (fst (for_each f xs t)).
Proof.
  revert t. induction xs as [|x xs IH]; intros t H; [constructor|].
  rewrite for_each_cons. cbn [fst]. constructor.
  - apply H. left. reflexivity.
  - apply IH. intros y t0 Hy. apply H. right. exact Hy.
Qed.

(** ** Keys *)

Lemma str_eqb_eq a b : str_eqb a b = true <-> a = b.
Proof.
  revert b. induction a as [|x a IH]; intros [|y b]; simpl; try (split; [discriminate|discriminate]).
  - split; reflexivity.
  - rewrite andb_true_iff, N.eqb_eq, IH. split; [intros [-> ->]; reflexivity|].
    intros [= -> ->]. auto.
Qed.

Lemma key_or_dummy_not_nil env dummy : dummy <> [] -> key_or_dummy env dummy <> [].
Proof. intros H. destruct env as [[|c k]|]; simpl; [exact H|discriminate|exact H]. Qed.

Lemma not_configured_iff env dummy :
  dummy <> [] ->
  (not_configured (key_or_dummy env dummy) dummy = true <-> env_unconfigured env dummy).
Proof.
  intros Hd. unfold not_configured, env_unconfigured. rewrite orb_true_iff, !str_eqb_eq.
  destruct env as [[|c k]|]; simpl.
  - split; auto.
  - split.
    + intros [H|H]; [discriminate|]. rewrite H. auto.
    + intros [H|[H|H]]; try discriminate. right. congruence.
  - split; auto.
Qed.

Lemma key_set_false_iff env dummy :
  key_set env dummy = false <-> env_unconfigured env dummy.
Proof.
  unfold key_set, env_unconfigured. destruct env as [k|]; [|tauto].
  rewrite andb_false_iff, !negb_false_iff, !str_eqb_eq. split.
  - intros [-> | ->]; auto.
  - intros [H|[H|H]]; [discriminate|left|right]; congruence.
Qed.

Lemma not_configured_key_set env dummy :
  dummy <> [] ->
  not_configured (key_or_dummy env dummy) dummy = negb (key_set env dummy).
Proof.
  intros Hd. destruct (key_set env dummy) eqn:E.
  - destruct (not_configured (key_or_dummy env dummy) dummy) eqn:E'; [|reflexivity].
    apply not_configured_iff in E'; [|exact Hd]. apply key_set_false_iff in E'. congruence.
  - apply not_configured_iff; [exact Hd|]. apply key_set_false_iff. exact E.
Qed.

Lemma unsplash_unconfigured_key_set W :
  unsplash_unconfigured W =
  negb (key_set (getenv_UNSPLASH_ACCESS_KEY W) DUMMY_UNSPLASH_KEY).
Proof. apply not_configured_key_set. discriminate. Qed.

Lemma unsplash_unconfigured_env W :
  unsplash_unconfigured W = true <->
  env_unconfigured (getenv_UNSPLASH_ACCESS_KEY W) DUMMY_UNSPLASH_KEY.
Proof. apply not_configured_iff. discriminate. Qed.

(** ** The image lookup *)

Lemma lookup_unfold W query is_ingredient t :
  lookup W query is_ingredient t =
  if unsplash_unconfigured W then VNone
  else match first_photo (reply_at W query is_ingredient t) is_ingredient with
       | Ok url => url
       | Raise _ => VNone
       end.
Proof.
  unfold lookup, get_image_for_query, unsplash_unconfigured, reply_at, search_params,
    bind, emit, history, ret.
  destruct (not_configured (UNSPLASH_ACCESS_KEY W) DUMMY_UNSPLASH_KEY); [reflexivity|].
  cbn [fst snd].
  destruct (first_photo _ is_ingredient); reflexivity.
Qed.

(** Every lookup leaves its mark on the trace, and a request when the
    key is configured. *)
Lemma get_image_for_query_logs W query is_ingredient t :
  snd (get_image_for_query W query is_ingredient t) =
  t ++ ImageLookup query is_ingredient ::
       (if unsplash_unconfigured W then []
        else [HttpGet UNSPLASH_URL (search_params W query is_ingredient)]).
Proof.
  unfold get_image_for_query, unsplash_unconfigured, search_params,
    bind, emit, history, ret.
  destruct (not_configured (UNSPLASH_ACCESS_KEY W) DUMMY_UNSPLASH_KEY); [reflexivity|].
  cbn [fst snd].
  destruct (first_photo _ is_ingredient); cbn [snd]; rewrite <- app_assoc; reflexivity.
Qed.

Lemma get_image_for_query_grows W query is_ingredient t :
  snd (get_image_for_query W query is_ingredient t) <> t.
Proof.
  rewrite get_image_for_query_logs. intros E.
  apply (f_equal (@length _)) in E. rewrite length_app in E. simpl in E. lia.
Qed.

Lemma first_photo_json data is_ingredient :
  match first_photo (HttpJson data) is_ingredient with
  | Ok url => url
  | Raise _ => VNone
  end =
  match photo_url data (size_key is_ingredient) with
  | Some url => url
  | None => VNone
  end.
Proof.
  unfold first_photo, photo_url, size_key.
  destruct data as [|b|n|s|items|top]; try reflexivity.
  - destruct b; reflexivity.
  - cbn [truthy]. destruct (negb (n =? 0)%Z); reflexivity.
  - cbn [truthy]. destruct (negb (str_eqb s [])); reflexivity.
  - cbn [truthy]. destruct items; reflexivity.
  - cbn [truthy]. destruct top as [|kv top']; [reflexivity|].
    unfold getitem at 1. cbn [rbind].
    destruct (dict_get (kv :: top') (py "results")) as [results|]; [|reflexivity].
    cbn [rbind].
    destruct results as [|b|n|s|items|d]; cbn [truthy]; try reflexivity.
    + destruct b; reflexivity.
    + destruct (negb (n =? 0)%Z); reflexivity.
    + destruct s as [|c s]; reflexivity.
    + destruct items as [|photo items]; [reflexivity|].
      cbn [getitem0 rbind].
      destruct photo as [| | | | |photo]; try reflexivity.
      unfold getitem at 1.
      destruct (dict_get photo (py "urls")) as [urls|]; [|reflexivity].
      cbn [rbind]. destruct urls as [| | | | |urls]; try reflexivity.
      unfold getitem. destruct is_ingredient;
        match goal with |- context [dict_get urls ?k] => destruct (dict_get urls k) end;
        reflexivity.
    + destruct d; reflexivity.
Qed.

Lemma suggest_names W ingredients_str t :
  map name (fst (suggest W ingredients_str t)) =
  extract_dishes (ask_groq W (suggest_prompt ingredients_str)).
Proof.
  unfold suggest. rewrite <- (map_id (extract_dishes _)) at 2.
  apply for_each_map. intros x t0. unfold bind, ret.
  destruct (get_image_for_query W x false t0). reflexivity.
Qed.

Lemma suggest_images W ingredients_str t :
  Forall (fun d => exists t0, image_url d = lookup W (name d) false t0)
    (fst (suggest W ingredients_str t)).
Proof.
  unfold suggest. apply for_each_Forall. intros x t0 _. exists t0.
  unfold lookup, bind, ret.
  destruct (get_image_for_query W x false t0) as [v t1] eqn:E.
  cbn [fst name image_url]. rewrite E. reflexivity.
Qed.

(** The lookup that fails or finds nothing: no key in the environment,
    an exception of the request, or a body that holds no URL or [null]
    for one. *)
Lemma lookup_absent_iff W query is_ingredient t :
  lookup W query is_ingredient t = VNone <->
  env_unconfigured (getenv_UNSPLASH_ACCESS_KEY W) DUMMY_UNSPLASH_KEY \/
  (exists e, reply_at W query is_ingredient t = HttpRaises e) \/
  (exists data,
     reply_at W query is_ingredient t = HttpJson data /\
     (photo_url data (size_key is_ingredient) = None \/
      photo_url data (size_key is_ingredient) = Some VNone)).
Proof.
  rewrite <- unsplash_unconfigured_env, lookup_unfold.
  destruct (unsplash_unconfigured W); [tauto|].
  destruct (reply_at W query is_ingredient t) as [e|data] eqn:E.
  - cbn [first_photo]. split; [eauto|reflexivity].
  - rewrite first_photo_json.
    destruct (photo_url data (size_key is_ingredient)) as [url|] eqn:Ep.
    + split.
      * intros ->. right. right. exists data. auto.
      * intros [H|[[e H]|(data' & H & Hp)]]; try discriminate.
        injection H as <-. rewrite Ep in Hp. destruct Hp as [Hp|Hp]; congruence.
    + split; [|reflexivity]. intros _. right. right. exists data. auto.
Qed.

(** Without a key in the environment the lookup returns [None] at its
    guard and sends nothing. *)
Lemma get_image_for_query_no_key W query is_ingredient t :
  env_unconfigured (getenv_UNSPLASH_ACCESS_KEY W) DUMMY_UNSPLASH_KEY ->
  get_image_for_query W query is_ingredient t =
  (VNone, t ++ [ImageLookup query is_ingredient]).
Proof.
  intros H. apply unsplash_unconfigured_env in H.
  rewrite (surjective_pairing (get_image_for_query W query is_ingredient t)).
  fold (lookup W query is_ingredient t).
  rewrite get_image_for_query_logs, lookup_unfold, H. reflexivity.
Qed.

(** ** C6: a failed lookup is an absent image *)

(** C6 (as amended): when the environment holds no key to use (unset,
    empty or the dummy) the lookup gives [None] and sends no request; on
    an exception of the request, and on a body without the place
    [results[0].urls.<size>] (no result, or fields missing), it gives
    [None]; with a key and a body that holds a value there, it gives
    that value, of whatever type.  So the image is absent exactly when
    the key is missing, the request raised, or the body holds nothing or
    [null] at that place.  [suggest] returns every extracted name, each
    with the value of its own lookup. *)
Theorem image_lookup_degrades W :
  (forall query is_ingredient t,
     env_unconfigured (getenv_UNSPLASH_ACCESS_KEY W) DUMMY_UNSPLASH_KEY ->
     get_image_for_query W query is_ingredient t =
     (VNone, t ++ [ImageLookup query is_ingredient])) /\
  (forall query is_ingredient t e,
     reply_at W query is_ingredient t = HttpRaises e ->
     lookup W query is_ingredient t = VNone) /\
  (forall query is_ingredient t data,
     reply_at W query is_ingredient t = HttpJson data ->
     photo_url data (size_key is_ingredient) = None ->
     lookup W query is_ingredient t = VNone) /\
  (forall query is_ingredient t data url,
     ~ env_unconfigured (getenv_UNSPLASH_ACCESS_KEY W) DUMMY_UNSPLASH_KEY ->
     reply_at W query is_ingredient t = HttpJson data ->
     photo_url data (size_key is_ingredient) = Some url ->
     lookup W query is_ingredient t = url) /\
  (forall query is_ingredient t,
     lookup W query is_ingredient t = VNone <->
     env_unconfigured (getenv_UNSPLASH_ACCESS_KEY W) DUMMY_UNSPLASH_KEY \/
     (exists e, reply_at W query is_ingredient t = HttpRaises e) \/
     (exists data,
        reply_at W query is_ingredient t = HttpJson data /\
        (photo_url data (size_key is_ingredient) = None \/
         photo_url data (size_key is_ingredient) = Some VNone))) /\
  (forall ingredients_str t,
     map name (fst (suggest W ingredients_str t)) =
       extract_dishes (ask_groq W (suggest_prompt ingredients_str)) /\
     Forall (fun d => exists t0, image_url d = lookup W (name d) false t0)
       (fst (suggest W ingredients_str t))).
Proof.
  repeat apply conj.
  - intros query is_ingredient t H. apply get_image_for_query_no_key. exact H.
  - intros query is_ingredient t e H. rewrite lookup_unfold, H.
    destruct (unsplash_unconfigured W); reflexivity.
  - intros query is_ingredient t data H Hp. rewrite lookup_unfold, H, first_photo_json, Hp.
    destruct (unsplash_unconfigured W); reflexivity.
  - intros query is_ingredient t data url Hk H Hp.
    rewrite lookup_unfold, H, first_photo_json, Hp.
    destruct (unsplash_unconfigured W) eqn:E; [|reflexivity].
    apply unsplash_unconfigured_env in E. tauto.
  - intros query is_ingredient t. apply lookup_absent_iff.
  - intros ingredients_str t. split; [apply suggest_names|apply suggest_images].
Qed.

Lemma image_lookup_degrades_witness :
  get_image_for_query W_NO_UNSPLASH_KEY (py "Fried Rice") false [] =
    (VNone, [ImageLookup (py "Fried Rice") false]) /\
  lookup W_MALFORMED (py "Garlic Bread") false [] = VNone /\
  lookup W_PHOTOS (py "Garlic Bread") false [] = VNone /\
  lookup W_PHOTOS (py "Tomato Soup") false [] = VNone /\
  lookup W_PHOTOS (py "Fried Rice") false [] = VStr (py "https://images.unsplash.com/p1") /\
  fst (suggest W_PHOTOS (py "egg, rice") []) =
    [ {| name := py "Fried Rice";
         image_url := VStr (py "https://images.unsplash.com/p1") |};
      {| name := py "Tomato Soup"; image_url := VNone |};
      {| name := py "Garlic Bread"; image_url := VNone |} ] /\
  fst (suggest W_NO_UNSPLASH_KEY (py "egg, rice") []) =
    [ {| name := py "Fried Rice"; image_url := VNone |};
      {| name := py "Tomato Soup"; image_url := VNone |};
      {| name := py "Garlic Bread"; image_url := VNone |} ].
Proof.
  destruct (image_lookup_degrades W_PHOTOS) as (_ & Hraise & Hnone & Hfound & _ & _).
  repeat apply conj.
  - apply (proj1 (image_lookup_degrades W_NO_UNSPLASH_KEY)). left. reflexivity.
  - apply (proj1 (proj2 (proj2 (image_lookup_degrades W_MALFORMED)))
             _ _ _ (VDict [(py "errors", VList [VStr (py "Rate Limit Exceeded")])]));
      reflexivity.
  - apply (Hnone _ _ _ NO_RESULTS); reflexivity.
  - apply (Hraise _ _ _ RequestException); reflexivity.
  - apply (Hfound _ _ _ (photo_body (py "https://images.unsplash.com/p1")));
      [|reflexivity|reflexivity].
    intros [H|[H|H]]; discriminate.
  - vm_compute. reflexivity.
  - vm_compute. reflexivity.
Defined.

(** C6, the claim as stated fails: a body of the expected shape with a
    number in the place of the URL is a malformed response, yet the
    lookup hands the number on as the image. *)
Lemma image_lookup_passes_wrong_type :
  reply_at W_NUMERIC (py "Dal") false [] = HttpJson NUMERIC_URL /\
  lookup W_NUMERIC (py "Dal") false [] = VNum 42 /\
  fst (suggest W_NUMERIC (py "lentils") []) =
    [ {| name := py "Dal"; image_url := VNum 42 |} ].
Proof. repeat apply conj; vm_compute; reflexivity. Qed.

(** ** C5: when the chat completion is not to be had *)

Lemma groq_unconfigured_iff W :
  groq_unconfigured W = true <->
  getenv_GROQ_API_KEY W = None \/ getenv_GROQ_API_KEY W = Some [] \/
  getenv_GROQ_API_KEY W = Some DUMMY_GROQ_KEY.
Proof.
  unfold groq_unconfigured, GROQ_API_KEY, key_or_dummy, not_configured.
  destruct (getenv_GROQ_API_KEY W) as [[|c k]|].
  - split; [auto|reflexivity].
  - rewrite orb_true_iff, !str_eqb_eq. split.
    + intros [H|H]; [discriminate|]. rewrite H. auto.
    + intros [H|[H|H]]; try discriminate. right. congruence.
  - split; [auto|reflexivity].
Qed.

Lemma suggest_of_plain_message W ingredients_str t :
  extract_dishes (ask_groq W (suggest_prompt ingredients_str)) = [] ->
  suggest W ingredients_str t = ([], t).
Proof. unfold suggest. intros ->. reflexivity. Qed.

(** C5 (as amended): without a configured key the reply is one fixed
    message, and so it is when the completion has no choices; when the
    call raises, the reply is a fixed prefix followed by the text of the
    exception.  In each case [suggest] returns the dishes extracted from
    that message, none at all for the two fixed messages, and no
    exception leaves [ask_groq]. *)
Theorem suggest_degrades W ingredients_str t :
  MSG_NOT_CONFIGURED <> [] /\
  (groq_unconfigured W = true ->
   ask_groq W (suggest_prompt ingredients_str) = MSG_NOT_CONFIGURED /\
   suggest W ingredients_str t = ([], t)) /\
  (groq_unconfigured W = false ->
   groq_create W (GROQ_API_KEY W) (suggest_prompt ingredients_str) = GroqNoChoices ->
   ask_groq W (suggest_prompt ingredients_str) = MSG_NO_CHOICES /\
   suggest W ingredients_str t = ([], t)) /\
  (forall e,
   groq_unconfigured W = false ->
   groq_create W (GROQ_API_KEY W) (suggest_prompt ingredients_str) = GroqRaises e ->
   ask_groq W (suggest_prompt ingredients_str) = MSG_WENT_WRONG ++ e /\
   map name (fst (suggest W ingredients_str t)) = extract_dishes (MSG_WENT_WRONG ++ e)).
Proof.
  unfold groq_unconfigured. repeat apply conj.
  - discriminate.
  - intros H.
    assert (E : ask_groq W (suggest_prompt ingredients_str) = MSG_NOT_CONFIGURED).
    { unfold ask_groq. rewrite H. reflexivity. }
    split; [exact E|]. apply suggest_of_plain_message. rewrite E. vm_compute. reflexivity.
  - intros H Hc.
    assert (E : ask_groq W (suggest_prompt ingredients_str) = MSG_NO_CHOICES).
    { unfold ask_groq. rewrite H, Hc. reflexivity. }
    split; [exact E|]. apply suggest_of_plain_message. rewrite E. vm_compute. reflexivity.
  - intros e H Hc.
    assert (E : ask_groq W (suggest_prompt ingredients_str) = MSG_WENT_WRONG ++ e).
    { unfold ask_groq. rewrite H, Hc. reflexivity. }
    split; [exact E|]. rewrite suggest_names, E. reflexivity.
Qed.

Lemma suggest_degrades_witness :
  ask_groq W_BARE (suggest_prompt (py "egg, rice")) = MSG_NOT_CONFIGURED /\
  suggest W_BARE (py "egg, rice") [] = ([], []).
Proof.
  apply (suggest_degrades W_BARE (py "egg, rice") []). reflexivity.
Defined.

(** C5, the claim as stated fails: the message put in place of the
    reply is not fixed, it carries the text of the exception, and dishes
    can be extracted from that text. *)
Lemma suggest_failure_message_not_fixed :
  ask_groq W_BOOM (suggest_prompt (py "egg")) =
    MSG_WENT_WRONG ++ py "upstream said:" ++ [NL] ++ py "- Pizza" /\
  ask_groq W_DOWN (suggest_prompt (py "egg")) = MSG_WENT_WRONG ++ py "Connection error." /\
  ask_groq W_BOOM (suggest_prompt (py "egg")) <> ask_groq W_DOWN (suggest_prompt (py "egg")) /\
  fst (suggest W_BOOM (py "egg") []) = [ {| name := py "Pizza"; image_url := VNone |} ] /\
  fst (suggest W_DOWN (py "egg") []) = [].
Proof.
  repeat apply conj; try (vm_compute; reflexivity).
  vm_compute. discriminate.
Qed.

(** ** The normalizer works line by line *)

Lemma find_close_line l rest :
  ~ In NL l ->
  find_close (l ++ NL :: rest) =
  match find_close l with
  | Some (c, r) => Some (c, r ++ NL :: rest)
  | None => None
  end.
Proof.
  induction l as [|a l IH]; intros H.
  - destruct rest; reflexivity.
  - assert (Ha : N.eqb a NL = false) by (apply N.eqb_neq; simpl in H; intuition congruence).
    assert (Hl : ~ In NL l) by (simpl in H; tauto).
    destruct l as [|b l'].
    + change (([a] ++ NL :: rest)) with (a :: NL :: rest).
      rewrite find_close_cons, Ha. change (N.eqb NL STAR) with false.
      rewrite andb_false_r. specialize (IH Hl). cbn [app] in IH. rewrite IH. reflexivity.
    + change ((a :: b :: l') ++ NL :: rest) with (a :: b :: (l' ++ NL :: rest)).
      rewrite !find_close_cons.
      destruct (N.eqb a STAR && N.eqb b STAR); [reflexivity|].
      rewrite Ha. change (b :: l' ++ NL :: rest) with ((b :: l') ++ NL :: rest).
      rewrite (IH Hl). destruct (find_close (b :: l')) as [[c r]|]; reflexivity.
Qed.

Lemma match_bold_line l rest :
  ~ In NL l ->
  match_bold (l ++ NL :: rest) =
  match match_bold l with
  | Some (c, r) => Some (c, r ++ NL :: rest)
  | None => None
  end.
Proof.
  intros H. destruct l as [|a [|b tl]].
  - destruct rest; reflexivity.
  - cbn [app match_bold]. change (N.eqb NL STAR) with false.
    rewrite andb_false_r. reflexivity.
  - cbn [app match_bold]. destruct (N.eqb a STAR && N.eqb b STAR); [|reflexivity].
    apply find_close_line. simpl in H |- *. tauto.
Qed.

Lemma normalize_line (l : pystr) rest :
  ~ In NL l -> normalize (l ++ NL :: rest) = normalize l ++ NL :: normalize rest.
Proof.
  induction l as [l IH] using length_ind. intros H.
  destruct l as [|a l].
  - cbn [app]. rewrite normalize_step.
    change (match_bold (NL :: rest)) with (match_bold ([] ++ NL :: rest)).
    rewrite match_bold_line by exact H. reflexivity.
  - change ((a :: l) ++ NL :: rest) with (a :: (l ++ NL :: rest)).
    rewrite !normalize_step.
    change (a :: (l ++ NL :: rest)) with ((a :: l) ++ NL :: rest).
    rewrite match_bold_line by exact H.
    destruct (match_bold (a :: l)) as [[c r]|] eqn:E.
    + pose proof (match_bold_shorter _ _ _ E) as Hlen.
      apply match_bold_spec in E as [E _].
      rewrite IH; [rewrite <- !app_assoc; reflexivity|exact Hlen|].
      intros Hr. apply H. rewrite E. apply in_or_app; right.
      apply in_or_app; right. apply in_or_app; right. exact Hr.
    + rewrite IH; [reflexivity|simpl; lia|simpl in H; tauto].
Qed.

Lemma normalize_no_NL (l : pystr) : ~ In NL l -> ~ In NL (normalize l).
Proof.
  induction l as [l IH] using length_ind. intros H.
  destruct l as [|a l]; [simp normalize; auto|].
  rewrite normalize_step. destruct (match_bold (a :: l)) as [[c r]|] eqn:E.
  - pose proof (match_bold_shorter _ _ _ E) as Hlen.
    apply match_bold_spec in E as [E [Hc _]].
    assert (Hr : ~ In NL r).
    { intros Hr. apply H. rewrite E. apply in_or_app; right.
      apply in_or_app; right. apply in_or_app; right. exact Hr. }
    intros Hin. apply in_app_or in Hin as [Hin|Hin].
    { vm_compute in Hin. intuition discriminate. }
    apply in_app_or in Hin as [Hin|Hin]; [tauto|].
    apply in_app_or in Hin as [Hin|Hin].
    { vm_compute in Hin. intuition discriminate. }
    exact (IH r Hlen Hr Hin).
  - intros [Ha|Hin]; [simpl in H; tauto|].
    revert Hin. apply IH; [simpl; lia|simpl in H; tauto].
Qed.

Lemma normalize_join_lines ls :
  Forall (fun l => ~ In NL l) ls ->
  normalize (join_lines ls) = join_lines (map normalize ls).
Proof.
  induction 1 as [|l ls Hl Hls IH]; [reflexivity|].
  destruct ls as [|l' ls']; [reflexivity|].
  change (join_lines (l :: l' :: ls')) with (l ++ NL :: join_lines (l' :: ls')).
  rewrite normalize_line by exact Hl. rewrite IH. reflexivity.
Qed.

Lemma split_lines_Forall s : Forall (fun l => ~ In NL l) (split_lines s).
Proof. apply Forall_forall. intros l. apply split_lines_no_NL. Qed.

(** The lines of the normalized text are the normalized lines. *)
Lemma split_lines_normalize s :
  split_lines (normalize s) = map normalize (split_lines s).
Proof.
  rewrite <- (join_split_lines s) at 1.
  rewrite normalize_join_lines by apply split_lines_Forall.
  apply split_join_lines.
  - intros E. apply map_eq_nil in E. exact (split_lines_nonempty s E).
  - apply Forall_map. eapply Forall_impl; [|apply split_lines_Forall].
    intros l. apply normalize_no_NL.
Qed.

Lemma quiet_other s :
  forallb (fun x => negb (N.eqb x STAR)) s = true -> quiet s.
Proof.
  intros H. rewrite <- (app_nil_r s). apply quiet_app_other; [exact H|exact quiet_nil].
Qed.

Lemma space_not_star ws :
  forallb isspace ws = true -> forallb (fun x => negb (N.eqb x STAR)) ws = true.
Proof.
  rewrite !forallb_forall. intros H x Hx. specialize (H x Hx).
  destruct (N.eqb_spec x STAR) as [->|_]; [discriminate|reflexivity].
Qed.

(** Normalizing never turns a line into a bulleted one. *)
Lemma is_dish_line_normalize l :
  is_dish_line (normalize l) = true -> is_dish_line l = true.
Proof.
  rewrite !is_dish_line_head. intros (b & r & E & Hb).
  destruct (dropwhile_split isspace l) as [ws [El Hws]].
  rewrite El in E. rewrite normalize_text in E by (apply quiet_other, space_not_star, Hws).
  rewrite dropwhile_app_all in E by exact Hws.
  destruct (dropwhile isspace l) as [|x rest] eqn:Ed.
  - discriminate.
  - pose proof (dropwhile_head _ _ _ _ Ed) as Hx.
    rewrite normalize_step in E. destruct (match_bold (x :: rest)) as [[c r']|].
    + vm_compute in E. injection E as <- _. 
      destruct Hb as [Hb|[Hb|[Hb|[]]]]; discriminate.
    + rewrite dropwhile_stop in E by exact Hx. injection E as <- _. eauto.
Qed.

(** ** The order of the suggestions *)

Lemma kept_positions_bounds p i l j :
  In j (kept_positions p i l) <->
  i <= j < i + length l /\ p (nth (j - i) l []) = true.
Proof.
  revert i. induction l as [|x l IH]; intros i.
  - simpl. split; [tauto|lia].
  - assert (Hstep : In j (kept_positions p (S i) l) <->
                    i < j < i + length (x :: l) /\ p (nth (j - i) (x :: l) []) = true).
    { rewrite IH. simpl length. split.
      - intros [Hj Hp]. split; [lia|].
        replace (j - i) with (S (j - S i)) by lia. exact Hp.
      - intros [Hj Hp]. split; [lia|].
        replace (j - i) with (S (j - S i)) in Hp by lia. exact Hp. }
    cbn [kept_positions]. destruct (p x) eqn:Hx.
    + cbn [In]. rewrite Hstep. split.
      * intros [<-|[Hj Hp]]; [|split; [lia|exact Hp]].
        split; [simpl; lia|]. rewrite Nat.sub_diag. exact Hx.
      * intros [Hj Hp]. destruct (Nat.eq_dec i j) as [E|E]; [left; exact E|].
        right. split; [lia|exact Hp].
    + rewrite Hstep. split.
      * intros [Hj Hp]. split; [lia|exact Hp].
      * intros [Hj Hp]. split; [|exact Hp].
        destruct (Nat.eq_dec i j) as [E|E]; [|lia].
        subst j. rewrite Nat.sub_diag in Hp. simpl in Hp. congruence.
Qed.

Lemma kept_positions_sorted p i l : StronglySorted lt (kept_positions p i l).
Proof.
  revert i. induction l as [|x l IH]; intros i; [constructor|].
  cbn [kept_positions]. destruct (p x); [|apply IH].
  constructor; [apply IH|]. apply Forall_forall. intros j Hj.
  apply kept_positions_bounds in Hj. lia.
Qed.

Lemma kept_positions_filter p i l :
  filter p l = map (fun j => nth (j - i) l []) (kept_positions p i l).
Proof.
  revert i. induction l as [|x l IH]; intros i; [reflexivity|].
  assert (E : map (fun j => nth (j - i) (x :: l) []) (kept_positions p (S i) l) =
              map (fun j => nth (j - S i) l []) (kept_positions p (S i) l)).
  { apply map_ext_in. intros j Hj. apply kept_positions_bounds in Hj.
    replace (j - i) with (S (j - S i)) by lia. reflexivity. }
  cbn [filter kept_positions]. destruct (p x).
  - cbn [map]. rewrite Nat.sub_diag, E, <- IH. reflexivity.
  - rewrite E, <- IH. reflexivity.
Qed.

(** ** C8: the suggestions follow the lines of the response *)

Lemma filter_map_lines (p : pystr -> bool) (f : pystr -> pystr) l :
  filter p (map f l) = map f (filter (fun x => p (f x)) l).
Proof.
  induction l as [|x l IH]; [reflexivity|].
  cbn [map filter]. destruct (p (f x)); cbn [map]; rewrite IH; reflexivity.
Qed.

Lemma extract_dishes_normalize raw :
  extract_dishes (normalize raw) = map dish_of (filter survives (split_lines raw)).
Proof.
  unfold extract_dishes. rewrite split_lines_normalize, filter_map_lines, map_map.
  reflexivity.
Qed.

Lemma ask_groq_content W prompt raw :
  not_configured (GROQ_API_KEY W) DUMMY_GROQ_KEY = false ->
  groq_create W (GROQ_API_KEY W) prompt = GroqContent raw ->
  ask_groq W prompt = normalize raw.
Proof. intros H Hc. unfold ask_groq. rewrite H, Hc. reflexivity. Qed.

(** C8: the names of the suggestions are the names of the surviving
    bullet lines of the response, one for each such line, in the order
    of the lines: they are read off the strictly increasing list of the
    positions of those lines, so that a name met twice is given twice.
    A response without any bulleted line gives no suggestion. *)
Theorem suggest_keeps_order W ingredients_str raw t :
  groq_unconfigured W = false ->
  groq_create W (GROQ_API_KEY W) (suggest_prompt ingredients_str) = GroqContent raw ->
  map name (fst (suggest W ingredients_str t)) =
    map dish_of (filter survives (split_lines raw)) /\
  (exists positions,
     StronglySorted lt positions /\
     (forall j, In j positions <->
                j < length (split_lines raw) /\
                survives (nth j (split_lines raw) []) = true) /\
     map name (fst (suggest W ingredients_str t)) =
       map (fun j => dish_of (nth j (split_lines raw) [])) positions) /\
  (forallb (fun line => negb (is_dish_line line)) (split_lines raw) = true ->
   suggest W ingredients_str t = ([], t)).
Proof.
  intros Hk Hc.
  assert (E : extract_dishes (ask_groq W (suggest_prompt ingredients_str)) =
              map dish_of (filter survives (split_lines raw))).
  { rewrite (ask_groq_content _ _ raw Hk Hc). apply extract_dishes_normalize. }
  split; [|split].
  - rewrite suggest_names. exact E.
  - exists (kept_positions survives 0 (split_lines raw)). split; [|split].
    + apply kept_positions_sorted.
    + intros j. rewrite kept_positions_bounds, Nat.sub_0_r. simpl. intuition lia.
    + rewrite suggest_names, E, (kept_positions_filter survives 0), map_map.
      apply map_ext. intros j. rewrite Nat.sub_0_r. reflexivity.
  - intros Hnone. apply suggest_of_plain_message. rewrite E.
    assert (Hf : filter survives (split_lines raw) = []).
    { rewrite forallb_forall in Hnone.
      destruct (filter survives (split_lines raw)) as [|l ls] eqn:Ef; [reflexivity|].
      assert (Hl : In l (filter survives (split_lines raw))) by (rewrite Ef; left; reflexivity).
      apply filter_In in Hl as [Hin Hs]. apply is_dish_line_normalize in Hs.
      specialize (Hnone l Hin). rewrite Hs in Hnone. discriminate. }
    rewrite Hf. reflexivity.
Qed.

Lemma suggest_keeps_order_witness :
  map name (fst (suggest W_TWICE (py "lentils") [])) = [py "Dal"; py "Roti"; py "Dal"] /\
  map name (fst (suggest W_TWICE (py "lentils") [])) =
    map dish_of (filter survives (split_lines TWICE_RESPONSE)).
Proof.
  destruct (suggest_keeps_order W_TWICE (py "lentils") TWICE_RESPONSE []
              eq_refl eq_refl) as (E & _ & _).
  split; [|exact E]. rewrite E. vm_compute. reflexivity.
Defined.

(** ** C7 and C10: the autocomplete *)

Lemma strip_nil_iff s : strip s = [] <-> forallb isspace s = true.
Proof. split; [apply strip_by_nil_all|apply strip_by_all]. Qed.

Lemma strip_strip s : strip (strip s) = strip s.
Proof. apply strip_by_fixed, strip_by_clear. Qed.

Lemma search_ingredients_blank lower W raw_query t :
  strip raw_query = [] -> search_ingredients lower W raw_query t = ([], t).
Proof. intros H. unfold search_ingredients. rewrite H. reflexivity. Qed.

Lemma search_ingredients_names lower W raw_query t :
  strip raw_query <> [] ->
  map sg_name (fst (search_ingredients lower W raw_query t)) =
  matching lower (strip raw_query).
Proof.
  intros H. unfold search_ingredients, matching.
  destruct (strip raw_query) as [|c q] eqn:E; [congruence|].
  cbn [str_eqb negb]. set (found := filter _ all_possible_ingredients).
  rewrite <- (map_id found) at 2.
  apply for_each_map. intros x t0. unfold bind, ret.
  destruct (get_image_for_query W x true t0). reflexivity.
Qed.

Lemma search_ingredients_images lower W raw_query t :
  Forall (fun s => exists t0,
            sg_image s = image_or_placeholder (lookup W (sg_name s) true t0))
    (fst (search_ingredients lower W raw_query t)).
Proof.
  unfold search_ingredients.
  destruct (negb (str_eqb (strip raw_query) [])); [|constructor].
  apply for_each_Forall. intros x t0 _. exists t0.
  unfold lookup, bind, ret, image_or_placeholder.
  destruct (get_image_for_query W x true t0) as [v t1] eqn:E.
  cbn [fst sg_name sg_image]. rewrite E. reflexivity.
Qed.

Lemma image_or_placeholder_truthy v : truthy (image_or_placeholder v) = true.
Proof.
  unfold image_or_placeholder. destruct (truthy v) eqn:E; [exact E|reflexivity].
Qed.

(** C7 (as amended): the names returned are the entries of the
    vocabulary, in its order, whose lowercase form holds the lowercase
    form of the query stripped of the whitespace at its ends; the image
    of each is the value of its lookup, or the placeholder path when
    that value is [None] or empty, so it is never empty; a query that
    is empty once stripped gives no entry at all. *)
Theorem search_ingredients_spec (lower : pystr -> pystr) W raw_query t :
  map sg_name (fst (search_ingredients lower W raw_query t)) =
    (if str_eqb (strip raw_query) [] then []
     else matching lower (strip raw_query)) /\
  (forall n,
     In n (map sg_name (fst (search_ingredients lower W raw_query t))) ->
     In n all_possible_ingredients /\
     exists pre post, lower n = pre ++ lower (strip raw_query) ++ post) /\
  Forall (fun s =>
            truthy (sg_image s) = true /\
            exists t0, sg_image s = image_or_placeholder (lookup W (sg_name s) true t0))
    (fst (search_ingredients lower W raw_query t)) /\
  search_ingredients lower W [] t = ([], t).
Proof.
  assert (Hnames :
    map sg_name (fst (search_ingredients lower W raw_query t)) =
    if str_eqb (strip raw_query) [] then [] else matching lower (strip raw_query)).
  { destruct (strip raw_query) as [|c q] eqn:E.
    - rewrite search_ingredients_blank by exact E. reflexivity.
    - cbn [str_eqb]. rewrite <- E. apply search_ingredients_names. congruence. }
  split; [exact Hnames|]. split; [|split].
  - intros n. rewrite Hnames. destruct (str_eqb (strip raw_query) []); [intros []|].
    unfold matching. rewrite filter_In, contains_spec. tauto.
  - pose proof (search_ingredients_images lower W raw_query t) as H.
    revert H. apply Forall_impl. intros s [t0 E]. split; [|eauto].
    rewrite E. apply image_or_placeholder_truthy.
  - reflexivity.
Qed.

Lemma search_ingredients_spec_witness :
  In (py "chicken") all_possible_ingredients /\
  exists pre post,
    ascii_lower (py "chicken") = pre ++ ascii_lower (strip (py " CHICK ")) ++ post.
Proof.
  apply (proj1 (proj2 (search_ingredients_spec ascii_lower W_PHOTOS (py " CHICK ") []))).
  vm_compute. left. reflexivity.
Defined.

(** C7, the claim as stated fails: the query is stripped before it is
    matched, so a query with a space before it still finds the entries
    that the query itself is no part of. *)
Lemma search_ingredients_matches_stripped_query :
  map sg_name (fst (search_ingredients ascii_lower W_BARE (py " Rice") [])) = [py "rice"] /\
  matching ascii_lower (py " Rice") = [] /\
  matching ascii_lower (py " ") <> [] /\
  search_ingredients ascii_lower W_BARE (py " ") [] = ([], []).
Proof.
  repeat apply conj; try (vm_compute; reflexivity).
  vm_compute. discriminate.
Qed.

Lemma strip_padded ws1 core ws2 :
  forallb isspace ws1 = true -> forallb isspace ws2 = true ->
  clear_ends isspace core ->
  strip (ws1 ++ core ++ ws2) = core.
Proof.
  intros H1 H2 Hc. symmetry. apply Stripped_unique. exists ws1, ws2. auto.
Qed.

(** C10: the query is stripped of the whitespace at its ends first.  A
    query of whitespace only gives no suggestion and leaves the trace as
    it was, where any lookup would have added to it, so that no lookup
    is made; any other query is matched in its stripped form, and gives
    what its stripped form gives.  Said without the stripping function:
    a query with whitespace put before and behind it gives what the
    query without that whitespace gives, its entries being those that
    hold that query. *)
Theorem search_ingredients_strips (lower : pystr -> pystr) W raw_query t :
  (forallb isspace raw_query = true ->
   search_ingredients lower W raw_query t = ([], t)) /\
  (forall query is_ingredient t0,
     snd (get_image_for_query W query is_ingredient t0) <> t0) /\
  (forallb isspace raw_query = false ->
   map sg_name (fst (search_ingredients lower W raw_query t)) =
     matching lower (strip raw_query)) /\
  search_ingredients lower W raw_query t =
    search_ingredients lower W (strip raw_query) t /\
  (forall ws1 core ws2,
     raw_query = ws1 ++ core ++ ws2 ->
     forallb isspace ws1 = true -> forallb isspace ws2 = true ->
     clear_ends isspace core ->
     strip raw_query = core /\
     search_ingredients lower W raw_query t = search_ingredients lower W core t /\
     (core <> [] ->
      map sg_name (fst (search_ingredients lower W raw_query t)) =
        filter (fun item => contains (lower core) (lower item))
          all_possible_ingredients)).
Proof.
  split; [|split; [|split; [|split]]].
  - intros H. apply search_ingredients_blank, strip_nil_iff, H.
  - intros query is_ingredient t0. apply get_image_for_query_grows.
  - intros H. apply search_ingredients_names. intros E.
    apply strip_nil_iff in E. congruence.
  - unfold search_ingredients. rewrite strip_strip. reflexivity.
  - intros ws1 core ws2 -> H1 H2 Hc.
    pose proof (strip_padded ws1 core ws2 H1 H2 Hc) as Es.
    assert (Ec : strip core = core) by (apply strip_by_fixed; exact Hc).
    split; [exact Es|]. split.
    + unfold search_ingredients. rewrite Es, Ec. reflexivity.
    + intros Hne. rewrite search_ingredients_names by (rewrite Es; exact Hne).
      rewrite Es. reflexivity.
Qed.

Lemma search_ingredients_strips_witness :
  search_ingredients ascii_lower W_PHOTOS ([9%N; SPACE; NL]) [] = ([], []) /\
  map sg_name (fst (search_ingredients ascii_lower W_PHOTOS (py "  bELL ") [])) =
    [py "bell pepper"] /\
  strip ([SPACE; 9%N] ++ py "Rice" ++ [SPACE; NL]) = py "Rice" /\
  map sg_name (fst (search_ingredients ascii_lower W_PHOTOS
                      ([SPACE; 9%N] ++ py "Rice" ++ [SPACE; NL]) [])) =
    [py "rice"].
Proof.
  split; [|split].
  - apply (search_ingredients_strips ascii_lower W_PHOTOS [9%N; SPACE; NL] []);
      reflexivity.
  - rewrite (proj1 (proj2 (proj2 (search_ingredients_strips ascii_lower W_PHOTOS
                                    (py "  bELL ") [])))) by reflexivity.
    vm_compute. reflexivity.
  - destruct (proj2 (proj2 (proj2 (proj2
               (search_ingredients_strips ascii_lower W_PHOTOS
                  ([SPACE; 9%N] ++ py "Rice" ++ [SPACE; NL]) []))))
               [SPACE; 9%N] (py "Rice") [SPACE; NL] eq_refl eq_refl eq_refl
               (clear_ends_check isspace (py "Rice") eq_refl))
      as (Es & _ & Hn).
    split; [exact Es|].
    rewrite Hn by discriminate. vm_compute. reflexivity.
Defined.

(** * Further properties of the code *)

(** ** The normalizer applied twice *)

Lemma first_line_split (s : pystr) :
  ~ In NL s \/ exists l rest, s = l ++ NL :: rest /\ ~ In NL l.
Proof.
  induction s as [|a s IH]; [left; simpl; tauto|].
  destruct (N.eqb_spec a NL) as [->|Ha].
  - right. exists [], s. split; [reflexivity|simpl; tauto].
  - destruct IH as [H|(l & rest & -> & H)].
    + left. simpl. intuition congruence.
    + right. exists (a :: l), rest. split; [reflexivity|]. simpl. intuition congruence.
Qed.

Lemma find_close_none_no_MARK l :
  ~ In NL l -> find_close l = None -> contains MARK l = false.
Proof.
  intros Hnl Hf. destruct (contains MARK l) eqn:E; [|reflexivity].
  apply contains_spec in E as (pre & post & ->).
  destruct (find_close_finds pre post); [|exact Hf].
  intros H. apply Hnl. apply in_or_app. left. exact H.
Qed.

Lemma normalize_no_MARK s : contains MARK s = false -> normalize s = s.
Proof.
  intros H. apply normalize_untouched. intros pre c post E. exfalso.
  assert (Hc : contains MARK s = true) by (apply contains_spec; eauto).
  congruence.
Qed.

Lemma find_close_normalize_none x :
  find_close x = None -> find_close (normalize x) = None.
Proof.
  intros H. destruct (first_line_split x) as [Hnl|(l & rest & -> & Hnl)].
  - rewrite normalize_no_MARK; [exact H|]. apply find_close_none_no_MARK; assumption.
  - rewrite find_close_line in H by exact Hnl.
    assert (Hl : find_close l = None).
    { destruct (find_close l) as [[c r]|]; [discriminate|reflexivity]. }
    rewrite normalize_line by exact Hnl.
    rewrite (normalize_no_MARK l) by (apply find_close_none_no_MARK; assumption).
    rewrite find_close_line by exact Hnl. rewrite Hl. reflexivity.
Qed.

Lemma match_bold_star_none tl : find_close tl = None -> match_bold (STAR :: tl) = None.
Proof.
  intros H. destruct (match_bold (STAR :: tl)) as [[c r]|] eqn:E; [|reflexivity].
  apply match_bold_spec in E as [E [Hc _]]. injection E as ->.
  destruct (find_close_finds (STAR :: c) r); [|exact H].
  simpl. intros [Hs|Hin]; [discriminate|tauto].
Qed.

Lemma normalize_head a s :
  exists rest, normalize (a :: s) = a :: rest \/
               (a = STAR /\ normalize (a :: s) = LT :: rest).
Proof.
  rewrite normalize_step. destruct (match_bold (a :: s)) as [[c r]|] eqn:E.
  - apply match_bold_spec in E as [E _]. injection E as -> _.
    eexists. right. split; reflexivity.
  - eexists. left. reflexivity.
Qed.

Lemma match_bold_normalize_none a s :
  match_bold (a :: s) = None -> match_bold (a :: normalize s) = None.
Proof.
  intros H. destruct s as [|b tl]; [exact H|].
  destruct (N.eqb a STAR && N.eqb b STAR) eqn:Hab.
  - apply andb_prop in Hab as [Ha Hb]. apply N.eqb_eq in Ha, Hb. subst a b.
    change (match_bold (STAR :: STAR :: tl)) with (find_close tl) in H.
    rewrite normalize_step, (match_bold_star_none tl H).
    change (match_bold (STAR :: STAR :: normalize tl)) with (find_close (normalize tl)).
    apply find_close_normalize_none. exact H.
  - destruct (normalize_head b tl) as [rest [E|[Hb E]]]; rewrite E.
    + apply match_bold_not_star. exact Hab.
    + apply match_bold_not_star. subst b. rewrite N.eqb_refl, andb_true_r in Hab.
      rewrite Hab. reflexivity.
Qed.

Lemma quiet_STRONG_OPEN : quiet STRONG_OPEN.
Proof. reflexivity. Qed.

Lemma quiet_STRONG_CLOSE : quiet STRONG_CLOSE.
Proof. reflexivity. Qed.

Lemma normalize_fixed (s : pystr) : normalize (normalize s) = normalize s.
Proof.
  induction s as [s IH] using length_ind.
  destruct s as [|a s]; [reflexivity|].
  rewrite normalize_step. destruct (match_bold (a :: s)) as [[c r]|] eqn:E.
  - pose proof (match_bold_shorter _ _ _ E) as Hlen.
    apply match_bold_spec in E as [_ [_ Hq]].
    rewrite (normalize_text STRONG_OPEN) by exact quiet_STRONG_OPEN.
    rewrite (normalize_text c) by exact Hq.
    rewrite (normalize_text STRONG_CLOSE) by exact quiet_STRONG_CLOSE.
    rewrite (IH r Hlen). reflexivity.
  - rewrite normalize_step, (match_bold_normalize_none _ _ E).
    rewrite (IH s) by (simpl; lia). reflexivity.
Qed.

Lemma unchanged_no_span s : normalize s = s -> has_span s = false.
Proof.
  induction s as [|a s IH]; [reflexivity|].
  rewrite normalize_step, has_span_cons.
  destruct (match_bold (a :: s)) as [[c r]|] eqn:E.
  - apply match_bold_spec in E as [E _]. injection E as -> _. discriminate.
  - intros [= H]. rewrite (IH H). reflexivity.
Qed.

(** X1: the normalizer leaves its own output as it is, and that output
    holds no span of the pattern anywhere: two markers left on one line
    of it are not to be had. *)
Theorem normalize_idempotent (s : pystr) :
  normalize (normalize s) = normalize s /\
  has_span (normalize s) = false /\
  (forall pre c post,
     normalize s = pre ++ MARK ++ c ++ MARK ++ post -> In NL c).
Proof.
  assert (H : has_span (normalize s) = false)
    by (apply unchanged_no_span, normalize_fixed).
  split; [apply normalize_fixed|]. split; [exact H|].
  apply has_span_check. exact H.
Qed.

(** ** Texts joined by a newline *)

Lemma split_lines_app_NL a b :
  split_lines (a ++ NL :: b) = split_lines a ++ split_lines b.
Proof.
  induction a as [|c a IH].
  - reflexivity.
  - change ((c :: a) ++ NL :: b) with (c :: (a ++ NL :: b)).
    cbn [split_lines]. rewrite IH.
    pose proof (split_lines_nonempty a) as Hne.
    destruct (N.eqb c NL); [reflexivity|].
    destruct (split_lines a) as [|l ls]; [congruence|reflexivity].
Qed.

Lemma join_lines_app xs ys :
  xs <> [] -> ys <> [] ->
  join_lines (xs ++ ys) = join_lines xs ++ NL :: join_lines ys.
Proof.
  intros Hx Hy. induction xs as [|x xs IH]; [congruence|].
  destruct xs as [|x' xs'].
  - destruct ys as [|y ys']; [congruence|]. reflexivity.
  - change (join_lines ((x :: x' :: xs') ++ ys))
      with (x ++ NL :: join_lines ((x' :: xs') ++ ys)).
    rewrite IH by discriminate.
    change (join_lines (x :: x' :: xs')) with (x ++ NL :: join_lines (x' :: xs')).
    rewrite <- app_assoc. reflexivity.
Qed.

Lemma normalize_by_lines s :
  normalize s = join_lines (map normalize (split_lines s)).
Proof.
  rewrite <- split_lines_normalize. symmetry. apply join_split_lines.
Qed.

(** X2: a span never runs over a newline, so the normalizer works on
    each line by itself: two texts joined by a newline are normalized
    apart, and the number of lines stays. *)
Theorem normalize_app_NL a b :
  normalize (a ++ NL :: b) = normalize a ++ NL :: normalize b /\
  length (split_lines (normalize a)) = length (split_lines a).
Proof.
  split.
  - rewrite (normalize_by_lines (a ++ NL :: b)), split_lines_app_NL, map_app.
    rewrite join_lines_app.
    + rewrite <- !normalize_by_lines. reflexivity.
    + intros E. apply map_eq_nil in E. exact (split_lines_nonempty a E).
    + intros E. apply map_eq_nil in E. exact (split_lines_nonempty b E).
  - rewrite split_lines_normalize. apply length_map.
Qed.

(** X3: the dishes of two responses joined by a newline are the dishes
    of the first followed by the dishes of the second. *)
Theorem extract_dishes_app_NL a b :
  extract_dishes (a ++ NL :: b) = extract_dishes a ++ extract_dishes b.
Proof.
  unfold extract_dishes. rewrite split_lines_app_NL, filter_app, map_app. reflexivity.
Qed.

(** ** Normalized, then stripped of tags *)

Lemma match_tag_open x : match_tag (STRONG_OPEN ++ x) = Some x.
Proof. apply match_tag_spec. right. reflexivity. Qed.

Lemma match_tag_close x : match_tag (STRONG_CLOSE ++ x) = Some x.
Proof. apply match_tag_spec. left. reflexivity. Qed.

Lemma remove_tags_open x : remove_tags (STRONG_OPEN ++ x) = remove_tags x.
Proof.
  pose proof (match_tag_open x) as E.
  change (STRONG_OPEN ++ x) with (LT :: (py "strong>" ++ x)) in *.
  rewrite remove_tags_step, E. reflexivity.
Qed.

Lemma remove_tags_close x : remove_tags (STRONG_CLOSE ++ x) = remove_tags x.
Proof.
  pose proof (match_tag_close x) as E.
  change (STRONG_CLOSE ++ x) with (LT :: (py "/strong>" ++ x)) in *.
  rewrite remove_tags_step, E. reflexivity.
Qed.

Lemma remove_tags_html ps :
  Forall (fun p => ~ In LT (text_of p)) ps -> remove_tags (html ps) = plain ps.
Proof.
  induction 1 as [|p ps Hp _ IH]; [reflexivity|].
  change (html (p :: ps)) with (html_of p ++ html ps).
  change (plain (p :: ps)) with (text_of p ++ plain ps).
  destruct p as [t|c]; unfold html_of, text_of in *.
  - rewrite remove_tags_app_other by exact Hp. rewrite IH. reflexivity.
  - rewrite <- !app_assoc, remove_tags_open, remove_tags_app_other by exact Hp.
    rewrite remove_tags_close, IH. reflexivity.
Qed.

(** X4: on a response with balanced markers and no [<], removing the
    tags after normalizing gives the text without its markers. *)
Theorem remove_tags_normalize ps :
  Forall balanced_piece ps ->
  Forall (fun p => ~ In LT (text_of p)) ps ->
  remove_tags (normalize (markdown ps)) = plain ps.
Proof.
  intros Hb Hlt. rewrite normalize_markdown by exact Hb. apply remove_tags_html. exact Hlt.
Qed.

Lemma remove_tags_normalize_witness :
  remove_tags (normalize (py "Try **Fried Rice** or a * b, then ****")) =
  py "Try Fried Rice or a * b, then ".
Proof.
  apply (remove_tags_normalize BALANCED_EXAMPLE).
  - repeat constructor; vm_compute; intuition discriminate.
  - repeat constructor; vm_compute; intuition discriminate.
Defined.

(** ** Which lines survive the normalizer *)

(** X5: a line of the raw response is a dish line after normalization
    exactly when, behind its leading whitespace, it starts with a marker
    at which no span [**...**] begins; a line that starts with a dash
    or a bullet always is one. *)
Theorem survives_spec line :
  (survives line = true <->
   exists ws b rest,
     line = ws ++ b :: rest /\ forallb isspace ws = true /\ In b MARKERS /\
     match_bold (b :: rest) = None) /\
  (forall ws b rest,
     line = ws ++ b :: rest -> forallb isspace ws = true ->
     b = DASH \/ b = BULLET -> survives line = true).
Proof.
  assert (Hback : forall ws b rest,
            line = ws ++ b :: rest -> forallb isspace ws = true -> In b MARKERS ->
            match_bold (b :: rest) = None -> survives line = true).
  { intros ws b rest -> Hws Hb Hm. unfold survives. apply is_dish_line_head.
    rewrite normalize_text by (apply quiet_other, space_not_star, Hws).
    rewrite dropwhile_app_all by exact Hws.
    rewrite normalize_step, Hm. exists b, (normalize rest). split; [|exact Hb].
    apply dropwhile_stop. apply marker_not_space. exact Hb. }
  split; [split|].
  - unfold survives. rewrite is_dish_line_head. intros (b & r & E & Hb).
    destruct (dropwhile_split isspace line) as [ws [El Hws]].
    rewrite El in E. rewrite normalize_text in E by (apply quiet_other, space_not_star, Hws).
    rewrite dropwhile_app_all in E by exact Hws.
    destruct (dropwhile isspace line) as [|x rest] eqn:Ed; [discriminate|].
    pose proof (dropwhile_head _ _ _ _ Ed) as Hx.
    rewrite normalize_step in E. destruct (match_bold (x :: rest)) as [[c r']|] eqn:Em.
    + vm_compute in E. injection E as <- _.
      destruct Hb as [Hb|[Hb|[Hb|[]]]]; discriminate.
    + rewrite dropwhile_stop in E by exact Hx. injection E as <- _.
      exists ws, x, rest. auto.
  - intros (ws & b & rest & E & Hws & Hb & Hm). eauto.
  - intros ws b rest E Hws Hb. apply (Hback ws b rest E Hws).
    + destruct Hb as [-> | ->]; simpl; auto.
    + apply match_bold_not_star. destruct Hb as [-> | ->]; reflexivity.
Qed.

Lemma survives_spec_witness :
  survives (py "  - **Dal**") = true.
Proof.
  apply (proj2 (survives_spec (py "  - **Dal**")) (py "  ") DASH (py " **Dal**"));
    [reflexivity|reflexivity|left; reflexivity].
Defined.

(** ** Bullets and spaces before a line *)

Lemma after_prefix_app_tail p x post :
  (forall c, In c p -> ~ In c post) ->
  after_prefix p (x ++ post) =
  match after_prefix p x with
  | Some r => Some (r ++ post)
  | None => None
  end.
Proof.
  revert x. induction p as [|c p IH]; intros x H; [reflexivity|].
  destruct x as [|y x].
  - cbn [app after_prefix]. destruct post as [|y post]; [reflexivity|].
    destruct (N.eqb_spec c y) as [->|_]; [|reflexivity].
    destruct (H y (or_introl eq_refl)). left. reflexivity.
  - cbn [app after_prefix]. destruct (N.eqb c y); [|reflexivity].
    apply IH. intros c' Hc'. apply H. right. exact Hc'.
Qed.

Lemma tag_chars_no_bullet tag post :
  tag = STRONG_OPEN \/ tag = STRONG_CLOSE ->
  forallb (mem BULLET_CHARS) post = true ->
  forall c, In c tag -> ~ In c post.
Proof.
  intros Ht Hpost c Hc. apply (bullet_chars_other c post Hpost);
    destruct Ht as [-> | ->]; vm_compute in Hc; intuition (subst; discriminate).
Qed.

Lemma match_tag_app_tail x post :
  forallb (mem BULLET_CHARS) post = true ->
  match_tag (x ++ post) =
  match match_tag x with
  | Some r => Some (r ++ post)
  | None => None
  end.
Proof.
  intros Hpost. unfold match_tag.
  rewrite !after_prefix_app_tail by (apply tag_chars_no_bullet; auto).
  destruct (after_prefix STRONG_CLOSE x); [reflexivity|].
  destruct (after_prefix STRONG_OPEN x); reflexivity.
Qed.

Lemma remove_tags_app_tail (s : pystr) post :
  forallb (mem BULLET_CHARS) post = true ->
  remove_tags (s ++ post) = remove_tags s ++ post.
Proof.
  intros Hpost. induction s as [s IH] using length_ind.
  destruct s as [|a s].
  - cbn [app]. rewrite <- (app_nil_r post) at 1.
    rewrite remove_tags_app_other
      by (apply (bullet_chars_other LT post Hpost); discriminate).
    simp remove_tags. rewrite app_nil_r. reflexivity.
  - change ((a :: s) ++ post) with (a :: (s ++ post)).
    rewrite !remove_tags_step.
    change (a :: (s ++ post)) with ((a :: s) ++ post).
    rewrite match_tag_app_tail by exact Hpost.
    destruct (match_tag (a :: s)) as [r|] eqn:E.
    + apply IH. exact (match_tag_shorter _ _ E).
    + rewrite IH by (simpl; lia). reflexivity.
Qed.

(** X6: bullet characters and spaces put before a line, or behind it,
    do not change the name it gives. *)
Theorem clean_line_padding pre post line :
  forallb (mem BULLET_CHARS) pre = true ->
  forallb (mem BULLET_CHARS) post = true ->
  clean_line (pre ++ line ++ post) = clean_line line.
Proof.
  intros Hpre Hpost. unfold clean_line.
  rewrite remove_tags_app_other
    by (apply (bullet_chars_other LT pre Hpre); discriminate).
  rewrite remove_tags_app_tail by exact Hpost.
  f_equal. unfold strip_chars. symmetry.
  apply (Stripped_unique (mem BULLET_CHARS) (pre ++ remove_tags line ++ post)).
  destruct (strip_by_Stripped (mem BULLET_CHARS) (remove_tags line))
    as (p & q & E & Hp & Hq & Hc).
  exists (pre ++ p), (q ++ post). repeat split; try apply Hc.
  - rewrite E at 1. rewrite <- !app_assoc. reflexivity.
  - rewrite forallb_app, Hpre, Hp. reflexivity.
  - rewrite forallb_app, Hpost, Hq. reflexivity.
Qed.

Lemma clean_line_padding_witness :
  clean_line (py "- * " ++ py "<strong>Aloo</strong> Gobi" ++ py " --") =
  clean_line (py "<strong>Aloo</strong> Gobi").
Proof.
  apply (clean_line_padding (py "- * ") (py " --") (py "<strong>Aloo</strong> Gobi")); reflexivity.
Defined.

(** ** The trace of the handlers *)

Lemma get_image_for_query_events W query is_ingredient t :
  snd (get_image_for_query W query is_ingredient t) =
  t ++ lookup_events W query is_ingredient.
Proof.
  rewrite get_image_for_query_logs. unfold lookup_events.
  rewrite unsplash_unconfigured_key_set.
  destruct (key_set (getenv_UNSPLASH_ACCESS_KEY W) DUMMY_UNSPLASH_KEY); reflexivity.
Qed.

Lemma for_each_trace {A B} (f : A -> M B) (ev : A -> list event) xs t :
  (forall x t0, snd (f x t0) = t0 ++ ev x) ->
  snd (for_each f xs t) = t ++ flat_map ev xs.
Proof.
  intros H. revert t. induction xs as [|x xs IH]; intros t.
  - simpl. rewrite app_nil_r. reflexivity.
  - rewrite for_each_cons. cbn [snd flat_map]. rewrite IH, H, app_assoc. reflexivity.
Qed.

Lemma bind_ret_snd {A B} (m : M A) (g : A -> B) t :
  snd (bind m (fun a => ret (g a)) t) = snd (m t).
Proof. unfold bind, ret. destruct (m t). reflexivity. Qed.

Lemma requests_of_lookups W flag names :
  length (filter is_request (flat_map (fun n => lookup_events W n flag) names)) =
  if unsplash_unconfigured W then 0 else length names.
Proof.
  unfold lookup_events. rewrite unsplash_unconfigured_key_set.
  induction names as [|n names IH].
  - destruct (key_set (getenv_UNSPLASH_ACCESS_KEY W) DUMMY_UNSPLASH_KEY); reflexivity.
  - cbn [flat_map]. rewrite filter_app, length_app, IH.
    destruct (key_set (getenv_UNSPLASH_ACCESS_KEY W) DUMMY_UNSPLASH_KEY); reflexivity.
Qed.

Lemma suggest_trace_dishes W ingredients_str t :
  snd (suggest W ingredients_str t) =
  t ++ flat_map (fun d => lookup_events W d false)
         (extract_dishes (ask_groq W (suggest_prompt ingredients_str))).
Proof.
  unfold suggest. apply for_each_trace. intros x t0.
  rewrite (bind_ret_snd (get_image_for_query W x false)
             (fun image_url => {| name := x; image_url := image_url |})).
  apply get_image_for_query_events.
Qed.

(** X7: the image lookups of [suggest] are one dish lookup for each
    suggestion it returns, in their order; it sends one request to
    Unsplash for each when the environment holds an Unsplash key to use,
    and none to Unsplash otherwise. *)
Theorem suggest_trace W ingredients_str t :
  snd (suggest W ingredients_str t) =
    t ++ flat_map (fun d => lookup_events W d false)
           (map name (fst (suggest W ingredients_str t))) /\
  length (filter is_request (snd (suggest W ingredients_str t))) =
    length (filter is_request t) +
    (if key_set (getenv_UNSPLASH_ACCESS_KEY W) DUMMY_UNSPLASH_KEY
     then length (fst (suggest W ingredients_str t))
     else 0).
Proof.
  assert (E : snd (suggest W ingredients_str t) =
              t ++ flat_map (fun d => lookup_events W d false)
                     (map name (fst (suggest W ingredients_str t)))).
  { rewrite suggest_names. apply suggest_trace_dishes. }
  split; [exact E|].
  rewrite E at 1. rewrite filter_app, length_app, requests_of_lookups, length_map.
  rewrite unsplash_unconfigured_key_set.
  destruct (key_set (getenv_UNSPLASH_ACCESS_KEY W) DUMMY_UNSPLASH_KEY); reflexivity.
Qed.

Lemma suggest_trace_witness :
  snd (suggest W_PHOTOS (py "egg, rice") []) =
    [ ImageLookup (py "Fried Rice") false;
      HttpGet UNSPLASH_URL (search_params W_PHOTOS (py "Fried Rice") false);
      ImageLookup (py "Tomato Soup") false;
      HttpGet UNSPLASH_URL (search_params W_PHOTOS (py "Tomato Soup") false);
      ImageLookup (py "Garlic Bread") false;
      HttpGet UNSPLASH_URL (search_params W_PHOTOS (py "Garlic Bread") false) ] /\
  snd (suggest W_NO_UNSPLASH_KEY (py "egg, rice") []) =
    [ ImageLookup (py "Fried Rice") false;
      ImageLookup (py "Tomato Soup") false;
      ImageLookup (py "Garlic Bread") false ].
Proof.
  split.
  - rewrite (proj1 (suggest_trace W_PHOTOS (py "egg, rice") [])).
    vm_compute. reflexivity.
  - rewrite (proj1 (suggest_trace W_NO_UNSPLASH_KEY (py "egg, rice") [])).
    vm_compute. reflexivity.
Defined.

Lemma search_ingredients_trace_names lower W raw_query t :
  snd (search_ingredients lower W raw_query t) =
  t ++ flat_map (fun n => lookup_events W n true)
         (if str_eqb (strip raw_query) [] then [] else matching lower (strip raw_query)).
Proof.
  unfold search_ingredients, matching.
  destruct (str_eqb (strip raw_query) []).
  - simpl. rewrite app_nil_r. reflexivity.
  - cbn [negb]. apply for_each_trace. intros x t0.
    rewrite (bind_ret_snd (get_image_for_query W x true)
               (fun image_url =>
                  {| sg_name := x;
                     sg_image := if truthy image_url then image_url
                                 else VStr PLACEHOLDER_IMAGE |})).
    apply get_image_for_query_events.
Qed.



(** ** The keys after start-up *)

(** X9: after start-up neither key is empty, and a service counts as
    unconfigured exactly when its variable was unset, empty, or set to
    the dummy itself. *)
Theorem keys_configured W :
  GROQ_API_KEY W <> [] /\
  UNSPLASH_ACCESS_KEY W <> [] /\
  (groq_unconfigured W = true <->
   env_unconfigured (getenv_GROQ_API_KEY W) DUMMY_GROQ_KEY) /\
  (unsplash_unconfigured W = true <->
   env_unconfigured (getenv_UNSPLASH_ACCESS_KEY W) DUMMY_UNSPLASH_KEY).
Proof.
  repeat apply conj.
  - apply key_or_dummy_not_nil. discriminate.
  - apply key_or_dummy_not_nil. discriminate.
  - apply not_configured_iff. discriminate.
  - apply not_configured_iff. discriminate.
  - apply not_configured_iff. discriminate.
  - apply not_configured_iff. discriminate.
Qed.

Lemma lookup_events_well_keyed W query is_ingredient :
  Forall well_keyed (lookup_events W query is_ingredient).
Proof.
  unfold lookup_events. constructor; [exact I|].
  pose proof (unsplash_unconfigured_key_set W) as E.
  destruct (key_set (getenv_UNSPLASH_ACCESS_KEY W) DUMMY_UNSPLASH_KEY);
    constructor; [|constructor].
  unfold unsplash_unconfigured, not_configured in E. cbn [negb] in E.
  apply orb_false_iff in E as [E1 E2].
  cbn [well_keyed search_params p_per_page p_client_id]. repeat split.
  - intros H. apply str_eqb_eq in H. congruence.
  - intros H. apply str_eqb_eq in H. congruence.
Qed.

Lemma flat_map_Forall {A} (P : event -> Prop) (ev : A -> list event) xs :
  (forall x, Forall P (ev x)) -> Forall P (flat_map ev xs).
Proof.
  intros H. induction xs as [|x xs IH]; [constructor|].
  cbn [flat_map]. apply Forall_app. auto.
Qed.

(** X10: whatever the image lookups of the handlers add to the trace,
    every request to Unsplash in it goes to the search URL, asks for one
    photo, and carries a configured key: no request is ever sent to
    Unsplash with an empty key or with the dummy. *)
Theorem requests_well_keyed (lower : pystr -> pystr) W :
  (forall ingredients_str t,
     exists evs, snd (suggest W ingredients_str t) = t ++ evs /\ Forall well_keyed evs) /\
  (forall dish t,
     exists evs, snd (recipe W dish t) = t ++ evs /\ Forall well_keyed evs) /\
  (forall raw_query t,
     exists evs, snd (search_ingredients lower W raw_query t) = t ++ evs /\
                 Forall well_keyed evs).
Proof.
  repeat apply conj.
  - intros ingredients_str t. eexists. split; [apply suggest_trace_dishes|].
    apply flat_map_Forall. intros x. apply lookup_events_well_keyed.
  - intros dish t. exists (lookup_events W dish false). split.
    + unfold recipe.
      rewrite (bind_ret_snd (get_image_for_query W dish false)
                 (fun image_url =>
                    {| rp_dish := dish;
                       rp_recipe := ask_groq W (recipe_prompt dish);
                       rp_image_url := image_url |})).
      apply get_image_for_query_events.
    + apply lookup_events_well_keyed.
  - intros raw_query t. eexists. split; [apply search_ingredients_trace_names|].
    apply flat_map_Forall. intros x. apply lookup_events_well_keyed.
Qed.

(** ** Without an Unsplash key *)

Lemma lookup_unconfigured W query is_ingredient t :
  unsplash_unconfigured W = true -> lookup W query is_ingredient t = VNone.
Proof. intros H. rewrite lookup_unfold, H. reflexivity. Qed.

(** X11: when the environment holds no Unsplash key to use (unset,
    empty or the dummy), every suggested dish comes without an image,
    every ingredient comes with the placeholder path, and no request to
    Unsplash is added to the trace. *)
Theorem no_key_no_images (lower : pystr -> pystr) W :
  env_unconfigured (getenv_UNSPLASH_ACCESS_KEY W) DUMMY_UNSPLASH_KEY ->
  (forall ingredients_str t,
     Forall (fun d => image_url d = VNone) (fst (suggest W ingredients_str t)) /\
     filter is_request (snd (suggest W ingredients_str t)) = filter is_request t) /\
  (forall raw_query t,
     Forall (fun s => sg_image s = VStr PLACEHOLDER_IMAGE)
       (fst (search_ingredients lower W raw_query t)) /\
     filter is_request (snd (search_ingredients lower W raw_query t)) =
       filter is_request t).
Proof.
  intros Henv. pose proof (proj2 (unsplash_unconfigured_env W) Henv) as Hk.
  assert (Hno : forall flag names,
            filter is_request (flat_map (fun n => lookup_events W n flag) names) = []).
  { intros flag names. apply length_zero_iff_nil.
    rewrite requests_of_lookups, Hk. reflexivity. }
  split.
  - intros ingredients_str t. split.
    + pose proof (suggest_images W ingredients_str t) as H.
      revert H. apply Forall_impl. intros d [t0 ->].
      apply lookup_unconfigured. exact Hk.
    + rewrite suggest_trace_dishes, filter_app, Hno, app_nil_r. reflexivity.
  - intros raw_query t. split.
    + pose proof (search_ingredients_images lower W raw_query t) as H.
      revert H. apply Forall_impl. intros s [t0 ->].
      rewrite lookup_unconfigured by exact Hk. reflexivity.
    + rewrite search_ingredients_trace_names, filter_app, Hno, app_nil_r. reflexivity.
Qed.

Lemma no_key_no_images_witness :
  (Forall (fun d => image_url d = VNone)
     (fst (suggest W_NO_UNSPLASH_KEY (py "egg, rice") [])) /\
   filter is_request (snd (suggest W_NO_UNSPLASH_KEY (py "egg, rice") [])) =
     filter is_request []) /\
  (Forall (fun s => sg_image s = VStr PLACEHOLDER_IMAGE)
     (fst (search_ingredients ascii_lower W_NO_UNSPLASH_KEY (py "oil") [])) /\
   filter is_request (snd (search_ingredients ascii_lower W_NO_UNSPLASH_KEY (py "oil") [])) =
     filter is_request []).
Proof.
  destruct (no_key_no_images ascii_lower W_NO_UNSPLASH_KEY (or_introl eq_refl))
    as [Hs Hq].
  split; [apply Hs|apply Hq].
Defined.

(** ** [ask_groq] and the normalizer *)

(** X12: unless the completion raised, the text [ask_groq] returns holds
    no span left to convert: normalizing it again changes nothing. *)
Theorem ask_groq_normalized W prompt :
  groq_unconfigured W = true \/
  (forall e, groq_create W (GROQ_API_KEY W) prompt <> GroqRaises e) ->
  normalize (ask_groq W prompt) = ask_groq W prompt.
Proof.
  unfold groq_unconfigured, ask_groq.
  destruct (not_configured (GROQ_API_KEY W) DUMMY_GROQ_KEY).
  - intros _. apply normalize_no_MARK. reflexivity.
  - intros [H|H]; [discriminate|].
    destruct (groq_create W (GROQ_API_KEY W) prompt) as [e| |content].
    + destruct (H e eq_refl).
    + apply normalize_no_MARK. reflexivity.
    + apply normalize_fixed.
Qed.

Lemma ask_groq_normalized_witness :
  normalize (ask_groq W_TWICE (recipe_prompt (py "Dal"))) =
  ask_groq W_TWICE (recipe_prompt (py "Dal")).
Proof.
  apply (ask_groq_normalized W_TWICE (recipe_prompt (py "Dal"))).
  right. intros e. discriminate.
Defined.

(** ** [recipe] *)

Lemma recipe_unfold W dish t :
  recipe W dish t =
  ({| rp_dish := dish;
      rp_recipe := ask_groq W (recipe_prompt dish);
      rp_image_url := lookup W dish false t |},
   t ++ lookup_events W dish false).
Proof.
  rewrite <- get_image_for_query_events. unfold recipe, lookup, bind, ret.
  destruct (get_image_for_query W dish false t). reflexivity.
Qed.

(** X13: [recipe] hands back the dish name it was given and looks the
    image up once, for the dish name itself, whatever became of the
    completion.  With a completion the body is its normalized content;
    without a Groq key it is the fixed message; when the call raises it
    is the failure prefix and the text of the exception.  With no key
    at all the page has the fixed message and no image, and no request
    was sent. *)
Theorem recipe_spec W dish t :
  rp_dish (fst (recipe W dish t)) = dish /\
  rp_image_url (fst (recipe W dish t)) = lookup W dish false t /\
  snd (recipe W dish t) = t ++ lookup_events W dish false /\
  (forall raw,
     groq_unconfigured W = false ->
     groq_create W (GROQ_API_KEY W) (recipe_prompt dish) = GroqContent raw ->
     rp_recipe (fst (recipe W dish t)) = normalize raw) /\
  (forall e,
     groq_unconfigured W = false ->
     groq_create W (GROQ_API_KEY W) (recipe_prompt dish) = GroqRaises e ->
     rp_recipe (fst (recipe W dish t)) = MSG_WENT_WRONG ++ e) /\
  (groq_unconfigured W = true ->
   rp_recipe (fst (recipe W dish t)) = MSG_NOT_CONFIGURED) /\
  (groq_unconfigured W = true -> unsplash_unconfigured W = true ->
   recipe W dish t =
   ({| rp_dish := dish; rp_recipe := MSG_NOT_CONFIGURED; rp_image_url := VNone |},
    t ++ [ImageLookup dish false])).
Proof.
  rewrite recipe_unfold. cbn [fst snd rp_dish rp_recipe rp_image_url].
  unfold groq_unconfigured. repeat apply conj; try reflexivity.
  - intros raw Hk Hc. apply ask_groq_content; assumption.
  - intros e Hk Hc. unfold ask_groq. rewrite Hk, Hc. reflexivity.
  - intros Hk. unfold ask_groq. rewrite Hk. reflexivity.
  - intros Hk Hu. unfold ask_groq, lookup_events. rewrite Hk.
    rewrite lookup_unconfigured by exact Hu.
    rewrite unsplash_unconfigured_key_set in Hu. apply negb_true_iff in Hu.
    rewrite Hu. reflexivity.
Qed.

Lemma recipe_spec_witness :
  recipe W_BARE (py "Dal") [] =
  ({| rp_dish := py "Dal"; rp_recipe := MSG_NOT_CONFIGURED; rp_image_url := VNone |},
   [ImageLookup (py "Dal") false]).
Proof.
  apply (proj2 (proj2 (proj2 (proj2 (proj2 (proj2 (recipe_spec W_BARE (py "Dal") [])))))));
    reflexivity.
Defined.

(** ** Narrowing the query *)

Lemma contains_trans a b c :
  contains a b = true -> contains b c = true -> contains a c = true.
Proof.
  rewrite !contains_spec. intros (p1 & q1 & ->) (p2 & q2 & ->).
  exists (p2 ++ p1), (q1 ++ q2). rewrite <- !app_assoc. reflexivity.
Qed.

Lemma filter_filter_weaker {A} (p q : A -> bool) l :
  (forall x, q x = true -> p x = true) -> filter q (filter p l) = filter q l.
Proof.
  intros H. induction l as [|x l IH]; [reflexivity|].
  cbn [filter]. destruct (p x) eqn:Hp.
  - cbn [filter]. rewrite IH. reflexivity.
  - destruct (q x) eqn:Hq; [rewrite (H x Hq) in Hp; discriminate|exact IH].
Qed.

(** X14: a query whose lowercase form holds the lowercase form of
    another finds no more than that other: its entries are those of the
    other that hold it as well, in the same order. *)
Theorem search_ingredients_narrows (lower : pystr -> pystr) W q1 q2 t1 t2 :
  strip q1 <> [] -> strip q2 <> [] ->
  contains (lower (strip q1)) (lower (strip q2)) = true ->
  map sg_name (fst (search_ingredients lower W q2 t2)) =
  filter (fun item => contains (lower (strip q2)) (lower item))
    (map sg_name (fst (search_ingredients lower W q1 t1))).
Proof.
  intros H1 H2 Hc. rewrite !search_ingredients_names by assumption.
  unfold matching. symmetry. apply filter_filter_weaker.
  intros item Hi. exact (contains_trans _ _ _ Hc Hi).
Qed.

Lemma search_ingredients_narrows_witness :
  map sg_name (fst (search_ingredients ascii_lower W_BARE (py "Pea") [])) =
    [py "peas"; py "peas"; py "peanuts"] /\
  map sg_name (fst (search_ingredients ascii_lower W_BARE (py " peaN") [])) =
    [py "peanuts"].
Proof.
  split; [vm_compute; reflexivity|].
  rewrite (search_ingredients_narrows ascii_lower W_BARE (py "Pea") (py " peaN") [] []).
  - vm_compute. reflexivity.
  - vm_compute. discriminate.
  - vm_compute. discriminate.
  - vm_compute. reflexivity.
Defined.

(** ** A reply that follows the prompt *)

Lemma normalize_bullet_item item :
  span_content (snd item) ->
  normalize (bullet_item item) =
  py "- " ++ (if fst item then STRONG_OPEN ++ snd item ++ STRONG_CLOSE else snd item).
Proof.
  intros [Hnl Hq]. unfold bullet_item. destruct item as [[|] n]; cbn [fst snd] in *.
  - rewrite (normalize_text (py "- ")) by reflexivity.
    rewrite <- (app_nil_r (MARK ++ n ++ MARK)), <- !app_assoc.
    rewrite normalize_span by (split; assumption).
    simp normalize. rewrite app_nil_r. reflexivity.
  - rewrite (normalize_text (py "- ")) by reflexivity.
    rewrite <- (app_nil_r n) at 1. rewrite normalize_text by exact Hq.
    simp normalize. rewrite app_nil_r. reflexivity.
Qed.

Lemma dish_of_bullet_item item :
  clean_name (snd item) ->
  survives (bullet_item item) = true /\ dish_of (bullet_item item) = snd item.
Proof.
  intros (Hc & Hlt & Hb & Hs). unfold survives, dish_of.
  rewrite normalize_bullet_item by exact Hc. split.
  - apply is_dish_line_spec. exists [], DASH. eexists. split; [reflexivity|].
    split; [reflexivity|]. right; left; reflexivity.
  - unfold clean_line.
    rewrite (remove_tags_app_other (py "- ")) by (vm_compute; intuition discriminate).
    match goal with
    | |- context [py "- " ++ remove_tags ?x] => assert (E : remove_tags x = snd item)
    end.
    { destruct (fst item).
      - rewrite remove_tags_open, remove_tags_app_other by exact Hlt.
        rewrite <- (app_nil_r STRONG_CLOSE), remove_tags_close.
        simp remove_tags. apply app_nil_r.
      - rewrite <- (app_nil_r (snd item)) at 1.
        rewrite remove_tags_app_other by exact Hlt.
        simp remove_tags. apply app_nil_r. }
    rewrite E.
    assert (E' : strip_chars BULLET_CHARS (py "- " ++ snd item) = snd item).
    { symmetry. apply Stripped_unique. exists (py "- "), [].
      rewrite app_nil_r. repeat split; auto; apply Hb. }
    rewrite E'. apply strip_by_fixed. exact Hs.
Qed.

Lemma bullet_item_no_NL item : ~ In NL (snd item) -> ~ In NL (bullet_item item).
Proof.
  unfold bullet_item. destruct item as [[|] n]; cbn [fst snd]; intros H Hin.
  - apply in_app_or in Hin as [Hin|Hin]; [vm_compute in Hin; intuition discriminate|].
    apply in_app_or in Hin as [Hin|Hin]; [vm_compute in Hin; intuition discriminate|].
    apply in_app_or in Hin as [Hin|Hin]; [tauto|vm_compute in Hin; intuition discriminate].
  - apply in_app_or in Hin as [Hin|Hin]; [vm_compute in Hin; intuition discriminate|tauto].
Qed.

(** X15: when the completion is a bulleted list as the prompt asks for,
    one line for each name, the name in bold or not, and the names hold
    no newline, marker or [<] and have no whitespace, bullet character
    or star at their ends, [suggest] returns exactly these names, in
    their order. *)
Theorem suggest_round_trip W ingredients_str items t :
  groq_unconfigured W = false ->
  groq_create W (GROQ_API_KEY W) (suggest_prompt ingredients_str) =
    GroqContent (join_lines (map bullet_item items)) ->
  Forall (fun item => clean_name (snd item)) items ->
  map name (fst (suggest W ingredients_str t)) = map snd items.
Proof.
  intros Hk Hc Hitems.
  rewrite suggest_names, (ask_groq_content _ _ _ Hk Hc), extract_dishes_normalize.
  destruct items as [|i0 items0]; [reflexivity|].
  remember (i0 :: items0) as items eqn:Ei.
  rewrite split_join_lines.
  - rewrite forallb_filter_id.
    + rewrite map_map. apply map_ext_in. intros item Hin.
      rewrite Forall_forall in Hitems. apply dish_of_bullet_item. auto.
    + apply forallb_forall. intros l Hl. apply in_map_iff in Hl as (item & <- & Hin).
      rewrite Forall_forall in Hitems. apply dish_of_bullet_item. auto.
  - rewrite Ei. discriminate.
  - apply Forall_map. revert Hitems. apply Forall_impl.
    intros item ((Hnl & _) & _). apply bullet_item_no_NL. exact Hnl.
Qed.

Lemma suggest_round_trip_witness :
  map name (fst (suggest W_FIVE (py "egg, rice") [])) =
  [py "Egg Fried Rice"; py "Stir-fry"; py "Kheer"].
Proof.
  apply (suggest_round_trip W_FIVE (py "egg, rice")
           [(true, py "Egg Fried Rice"); (false, py "Stir-fry"); (true, py "Kheer")] []).
  - reflexivity.
  - reflexivity.
  - repeat constructor; cbn [snd];
      try (apply clear_ends_check; reflexivity);
      try reflexivity; vm_compute; intuition discriminate.
Defined.
